(** * IPSubnetCalculator: a shallow embedding of [src/ip-subnet-calculator.ts]

    The TypeScript module is a set of pure functions over JavaScript
    numbers and strings.  Numbers are modelled by [Z]: every value the
    module computes from integer arguments is an integer far below
    2^53, where double arithmetic is exact.  The 32-bit operators
    ([<<], [>>>], [&]) are written out with their conversions to
    32-bit integers.  Strings are [string]; a thrown [Error] is the
    [Throw] case of a completion. *)

From Stdlib Require Import ZArith List Bool Lia String Ascii DecimalString.
From Stdlib Require Import Sorting.Sorted.
Import ListNotations.

#[local] Open Scope Z_scope.

(** ** JavaScript primitives *)

Module JS.

Definition two32 : Z := 4294967296.

(** ECMAScript ToUint32 and ToInt32 on an integer-valued number. *)
Definition ToUint32 (x : Z) : Z := x mod two32.

Definition ToInt32 (x : Z) : Z :=
  let u := x mod two32 in
  if 2147483648 <=? u then u - two32 else u.

(** [a << b]: both operands to 32 bits, the count masked to 5 bits,
    the result read as a signed 32-bit integer. *)
Definition shl (a b : Z) : Z :=
  ToInt32 (Z.shiftl (ToInt32 a) (ToUint32 b mod 32)).

(** [a >>> b]: the left operand as an unsigned 32-bit integer. *)
Definition ushr (a b : Z) : Z :=
  Z.shiftr (ToUint32 a) (ToUint32 b mod 32).

(** [a & b]: on signed 32-bit integers, in two's complement. *)
Definition band (a b : Z) : Z :=
  Z.land (ToInt32 a) (ToInt32 b).

(** [a % b] keeps the sign of the dividend; [Math.floor (a / b)]. *)
Definition rem (a b : Z) : Z := Z.rem a b.
Definition floor_div (a b : Z) : Z := a / b.

End JS.

(** ** Values, errors and completions *)

(** [IPAny = string | number]. *)
Inductive IPAny : Type :=
| IPStr (s : string)
| IPNum (n : Z).

(** The two [Error]s the module throws, with the offending value that
    the message interpolates. *)
Inductive Error : Type :=
| NotAnIpAddress (v : IPAny)          (* `Not an IP address: ${v}` *)
| NotANumericIpAddress (v : IPAny).   (* `Not a numeric IP address: ${v}` *)

(** How a call ends: with a value, with a thrown error, or, for the one
    unbounded [while] loop of the model, with its iteration budget used
    up. *)
Inductive completion (A : Type) : Type :=
| Normal (a : A)
| Throw (e : Error)
| OutOfFuel.

Arguments Normal {A} a.
Arguments Throw {A} e.
Arguments OutOfFuel {A}.

Definition bind {A B : Type} (c : completion A) (k : A -> completion B)
  : completion B :=
  match c with
  | Normal a => k a
  | Throw e => Throw e
  | OutOfFuel => OutOfFuel
  end.

Notation "x <- c ;; k" := (bind c (fun x => k))
  (at level 61, c at next level, right associativity).

(** [try { c } catch (err) { return h }], for a handler that ignores
    the error, as all three handlers of the module do. *)
Definition try_catch {A B : Type} (c : completion A) (h : completion B)
  (k : A -> completion B) : completion B :=
  match c with
  | Normal a => k a
  | Throw _ => h
  | OutOfFuel => OutOfFuel
  end.

Record SubnetAnalysis : Type := mkSubnetAnalysis {
  ipLow : Z;
  ipLowStr : string;
  ipHigh : Z;
  ipHighStr : string;
  prefixMask : Z;
  prefixMaskStr : string;
  prefixSize : Z;
  invertedMask : Z;
  invertedMaskStr : string;
  invertedMaskSize : Z
}.

(** ** Mask builders *)

(** [for (i = 0; i < prefixSize; i += 1) mask += (1 << (32 - (i + 1))) >>> 0].
    The loop runs [Z.to_nat prefixSize] times (not at all for a negative
    [prefixSize]); [n] counts the iterations left.  [mask] and [i] are
    JS numbers, which the source adds in double precision; the sums
    here are the exact ones.  The two agree as long as every sum is
    below [2 ^ 53], which holds for every [prefixSize] up to [2 ^ 26]
    ([masks_below_2_53]); the properties of this file are about
    counts in that range. *)
Fixpoint getPrefixMask_loop (n : nat) (i mask : Z) : Z :=
  match n with
  | O => mask
  | S n' =>
      getPrefixMask_loop n' (i + 1)
        (mask + JS.ushr (JS.shl 1 (32 - (i + 1))) 0)
  end.

Definition getPrefixMask (prefixSize : Z) : Z :=
  getPrefixMask_loop (Z.to_nat prefixSize) 0 0.

(** [for (i = 0; i < maskSize; i += 1) mask += (1 << i) >>> 0].  Exact
    sums, as in [getPrefixMask_loop], with the same range of agreement
    with the source. *)
Fixpoint getMask_loop (n : nat) (i mask : Z) : Z :=
  match n with
  | O => mask
  | S n' => getMask_loop n' (i + 1) (mask + JS.ushr (JS.shl 1 i) 0)
  end.

Definition getMask (maskSize : Z) : Z :=
  getMask_loop (Z.to_nat maskSize) 0 0.

(** ** Address codec *)

Definition is_digit (c : ascii) : bool :=
  let n := Z.of_N (N_of_ascii c) in (48 <=? n) && (n <=? 57).

Definition digit_value (c : ascii) : Z := Z.of_N (N_of_ascii c) - 48.

(** The number denoted by a string of decimal digits: what both
    [parseInt(g, 10)] and unary [+g] give on such a string. *)
Fixpoint decimal_value_from (acc : Z) (s : string) : Z :=
  match s with
  | EmptyString => acc
  | String c s' => decimal_value_from (acc * 10 + digit_value c) s'
  end.

Definition decimal_value (s : string) : Z := decimal_value_from 0 s.

(** [`${n}`] for an integer [n]: its decimal digits, with a sign when
    negative. *)
Definition number_to_string (n : Z) : string :=
  DecimalString.NilZero.string_of_int (Z.to_int n).

(** [s.split(sep)] for a one-character separator. *)
Fixpoint split (sep : ascii) (s : string) : list string :=
  match s with
  | EmptyString => [EmptyString]
  | String c s' =>
      if Ascii.eqb c sep then EmptyString :: split sep s'
      else match split sep s' with
           | g :: gs => String c g :: gs
           | [] => [String c EmptyString]
           end
  end.

Fixpoint all_digits (s : string) : bool :=
  match s with
  | EmptyString => true
  | String c s' => is_digit c && all_digits s'
  end.

(** One group [[0-9]{1,3}]. *)
Definition digit_group (g : string) : bool :=
  all_digits g && (1 <=? Z.of_nat (String.length g))
               && (Z.of_nat (String.length g) <=? 3).

(** [ip.match(/^([0-9]{1,3})\.([0-9]{1,3})\.([0-9]{1,3})\.([0-9]{1,3})$/)]:
    the four captured groups, or [None] for [null].  A string matches
    when cutting it at its dots leaves exactly four groups of one to
    three digits. *)
Definition match_ip (ip : string) : option (list string) :=
  match split "." ip with
  | [a; b; c; d] =>
      if digit_group a && digit_group b && digit_group c && digit_group d
      then Some [a; b; c; d] else None
  | _ => None
  end.

(** The [for] loop of [isIp] over the captured groups. *)
Fixpoint isIp_loop (parts : list string) : bool :=
  match parts with
  | [] => true
  | g :: parts' =>
      let n := decimal_value g in
      if (255 <? n) || (n <? 0) then false else isIp_loop parts'
  end.

Definition isIp (ip : IPAny) : bool :=
  match ip with
  | IPNum _ => false                    (* typeof ip !== 'string' *)
  | IPStr s =>
      match match_ip s with
      | None => false
      | Some parts => isIp_loop parts
      end
  end.

Definition isDecimalIp (ipNum : IPAny) : bool :=
  match ipNum with
  | IPStr _ => false                    (* typeof ipNum === 'number' fails *)
  | IPNum n => (JS.rem n 1 =? 0) && (0 <=? n) && (n <=? 4294967295)
  end.

Definition toDecimal (ipString : IPAny) : completion Z :=
  match ipString with
  | IPNum n =>
      if isDecimalIp ipString then Normal n
      else Throw (NotAnIpAddress ipString)
  | IPStr s =>
      if negb (isIp ipString) then Throw (NotAnIpAddress ipString)
      else
        let d := split "." s in
        let d_ k := decimal_value (nth k d EmptyString) in
        Normal (((d_ 0%nat * 256 + d_ 1%nat) * 256 + d_ 2%nat) * 256 + d_ 3%nat)
  end.

(** [for (let i = 3; i > 0; i -= 1)]: three iterations. *)
Fixpoint toString_loop (n : nat) (curIp : Z) (d : string) : string :=
  match n with
  | O => d
  | S n' =>
      let curIp := JS.floor_div curIp 256 in
      toString_loop n' curIp
        (number_to_string (JS.rem curIp 256) ++ "." ++ d)%string
  end.

Definition toString (ipNum : IPAny) : completion string :=
  match ipNum with
  | IPStr s =>
      if isIp ipNum then Normal s
      else Throw (NotANumericIpAddress ipNum)
  | IPNum n =>
      if negb (isDecimalIp ipNum) then Throw (NotANumericIpAddress ipNum)
      else Normal (toString_loop 3 n (number_to_string (JS.rem n 256)))
  end.

(** ** Range analyzer *)

Definition getMaskRange (ipNum prefixSize : Z) : completion SubnetAnalysis :=
  let prefixMask := getPrefixMask prefixSize in
  let lowMask := getMask (32 - prefixSize) in
  let ipLow := JS.ushr (JS.band ipNum prefixMask) 0 in
  let ipHigh := JS.ushr (JS.ushr (JS.band ipNum prefixMask) 0 + lowMask) 0 in
  ipLowStr <- toString (IPNum ipLow) ;;
  ipHighStr <- toString (IPNum ipHigh) ;;
  prefixMaskStr <- toString (IPNum prefixMask) ;;
  invertedMaskStr <- toString (IPNum lowMask) ;;
  Normal {| ipLow := ipLow;
            ipLowStr := ipLowStr;
            ipHigh := ipHigh;
            ipHighStr := ipHighStr;
            prefixMask := prefixMask;
            prefixMaskStr := prefixMaskStr;
            prefixSize := prefixSize;
            invertedMask := lowMask;
            invertedMaskStr := invertedMaskStr;
            invertedMaskSize := 32 - prefixSize |}.

(** [for (prefixSize = 32; prefixSize >= 0; prefixSize -= 1)] with its
    [break]: at most 33 iterations, [n] counting those left. *)
Fixpoint getOptimalRange_loop (n : nat) (ipNum ipEndNum prefixSize : Z)
  (optimalRange : option SubnetAnalysis)
  : completion (option SubnetAnalysis) :=
  match n with
  | O => Normal optimalRange
  | S n' =>
      maskRange <- getMaskRange ipNum prefixSize ;;
      if (ipLow maskRange =? ipNum) && (ipHigh maskRange <=? ipEndNum)
      then getOptimalRange_loop n' ipNum ipEndNum (prefixSize - 1)
             (Some maskRange)
      else Normal optimalRange
  end.

Definition getOptimalRange (ipNum ipEndNum : Z)
  : completion (option SubnetAnalysis) :=
  getOptimalRange_loop 33 ipNum ipEndNum 32 None.

(** [while (ipCurNum <= ipEndNum)]: the one loop without a bound in its
    header, run on a budget of iterations. *)
Fixpoint calculate_loop (fuel : nat) (ipCurNum ipEndNum : Z)
  (rangeCollection : list SubnetAnalysis)
  : completion (option (list SubnetAnalysis)) :=
  if ipCurNum <=? ipEndNum then
    match fuel with
    | O => OutOfFuel
    | S fuel' =>
        optimalRange <- getOptimalRange ipCurNum ipEndNum ;;
        match optimalRange with
        | None => Normal None
        | Some optimalRange =>
            calculate_loop fuel' (ipHigh optimalRange + 1) ipEndNum
              (rangeCollection ++ [optimalRange])
        end
    end
  else Normal (Some rangeCollection).

(** Every iteration moves [ipCurNum] up by at least one, so the
    distance to [ipEndNum] bounds the number of iterations. *)
Definition calculate (ipStart ipEnd : IPAny)
  : completion (option (list SubnetAnalysis)) :=
  try_catch (ipStartNum <- toDecimal ipStart ;;
             ipEndNum <- toDecimal ipEnd ;;
             Normal (ipStartNum, ipEndNum))
    (Normal None)
    (fun '(ipStartNum, ipEndNum) =>
       if ipEndNum <? ipStartNum then Normal None
       else calculate_loop (Z.to_nat (ipEndNum - ipStartNum + 1))
              ipStartNum ipEndNum []).

Definition calculateSubnetMask (ip : IPAny) (prefixSize : Z)
  : completion (option SubnetAnalysis) :=
  try_catch (toDecimal ip) (Normal None)
    (fun ipNum =>
       r <- getMaskRange ipNum prefixSize ;; Normal (Some r)).

(** ** Prefix deriver *)

(** [for (prefixSize = 0; prefixSize < 32; prefixSize += 1)] with its
    [break]; the value is [prefixSize] when the loop is left. *)
Fixpoint calculateCIDRPrefix_loop (n : nat)
  (subnetMaskNum prefix prefixSize : Z) : Z :=
  match n with
  | O => prefixSize
  | S n' =>
      let newPrefix := JS.ushr (prefix + JS.shl 1 (32 - (prefixSize + 1))) 0 in
      if negb (JS.ushr (JS.band subnetMaskNum newPrefix) 0 =? newPrefix)
      then prefixSize
      else calculateCIDRPrefix_loop n' subnetMaskNum newPrefix (prefixSize + 1)
  end.

Definition calculateCIDRPrefix (ip subnetMask : IPAny)
  : completion (option SubnetAnalysis) :=
  try_catch (ipNum <- toDecimal ip ;;
             subnetMaskNum <- toDecimal subnetMask ;;
             Normal (ipNum, subnetMaskNum))
    (Normal None)
    (fun '(ipNum, subnetMaskNum) =>
       let prefixSize := calculateCIDRPrefix_loop 32 subnetMaskNum 0 0 in
       r <- getMaskRange ipNum prefixSize ;; Normal (Some r)).

(** ** Vocabulary of the specification *)

(** The dotted form of an integer address, as the number branch of
    [toString] builds it. *)
Definition dotted (n : Z) : string :=
  toString_loop 3 n (number_to_string (JS.rem n 256)).

(** The test of the loop of [getOptimalRange] at one prefix size. *)
Definition fits (ipNum ipEndNum prefixSize : Z) : bool :=
  match getMaskRange ipNum prefixSize with
  | Normal maskRange =>
      (ipLow maskRange =? ipNum) && (ipHigh maskRange <=? ipEndNum)
  | _ => false
  end.

(** [x] lies in the block. *)
Definition covers (x : Z) (b : SubnetAnalysis) : bool :=
  (ipLow b <=? x) && (x <=? ipHigh b).

(** The blocks of [l] lie end to end from [cur] up to [last]: the
    first starts at [cur], each next one starts right after the one
    before ends, and the last ends at [last]. *)
Fixpoint tiles (cur : Z) (l : list SubnetAnalysis) (last : Z) : Prop :=
  match l with
  | [] => cur = last + 1
  | b :: l' =>
      ipLow b = cur /\ cur <= ipHigh b <= last /\ tiles (ipHigh b + 1) l' last
  end.

(** The number of 1-bits of a 32-bit mask before its first 0-bit,
    reading from bit 31 down: [n] bits are left to read, the next one
    is bit [k]. *)
Fixpoint leading_ones_from (n : nat) (m k : Z) : Z :=
  match n with
  | O => 0
  | S n' => if Z.testbit m k then 1 + leading_ones_from n' m (k - 1) else 0
  end.

Definition leading_ones (m : Z) : Z := leading_ones_from 32 m 31.

(** A group of digits is written without a leading zero: it is a
    single digit or does not start with ["0"]. *)
Definition no_leading_zero (g : string) : bool :=
  match g with
  | String c (String _ _) => negb (Ascii.eqb c "0")
  | _ => true
  end.

(** An address string is in canonical form when none of its groups has
    a leading zero. *)
Definition canonical (s : string) : bool :=
  forallb no_leading_zero (split "." s).

(** The values of one octet. *)
Definition octets : list Z := map Z.of_nat (seq 0 256).

(** The groups of a string put back together with dots between them. *)
Fixpoint join_dots (l : list string) : string :=
  match l with
  | [] => EmptyString
  | [g] => g
  | g :: l' => (g ++ String "." (join_dots l'))%string
  end.

(** The low address and prefix size of each block of a list, in order:
    the blocks in CIDR notation. *)
Definition summary (l : list SubnetAnalysis) : list (string * Z) :=
  map (fun b => (ipLowStr b, prefixSize b)) l.

(** The descriptor of the block of [2 ^ (32 - p)] addresses that starts
    at [low], as [getMaskRange] fills it in. *)
Definition descriptor (low p : Z) : SubnetAnalysis :=
  {| ipLow := low;
     ipLowStr := dotted low;
     ipHigh := low + getMask (32 - p);
     ipHighStr := dotted (low + getMask (32 - p));
     prefixMask := getPrefixMask p;
     prefixMaskStr := dotted (getPrefixMask p);
     prefixSize := p;
     invertedMask := getMask (32 - p);
     invertedMaskStr := dotted (getMask (32 - p));
     invertedMaskSize := 32 - p |}.

(** * Properties *)

(** ** The 32-bit operators, in closed form *)

Section JSFacts.

Lemma two32_pow : JS.two32 = 2 ^ 32.
Proof. reflexivity. Qed.

Lemma ToInt32_mod x : JS.ToInt32 x mod 2 ^ 32 = x mod 2 ^ 32.
Proof.
  unfold JS.ToInt32. rewrite two32_pow.
  assert (Hb : 0 <= x mod 2 ^ 32 < 2 ^ 32) by (apply Z.mod_pos_bound; lia).
  destruct (2147483648 <=? x mod 2 ^ 32).
  - replace (x mod 2 ^ 32 - 2 ^ 32) with (x mod 2 ^ 32 + (-1) * 2 ^ 32) by lia.
    rewrite Z.mod_add by lia. now rewrite Z.mod_mod by lia.
  - now rewrite Z.mod_mod by lia.
Qed.

Lemma ushr_0 x : JS.ushr x 0 = x mod 2 ^ 32.
Proof. unfold JS.ushr, JS.ToUint32. now rewrite two32_pow. Qed.

Lemma shift_count b : JS.ToUint32 b mod 32 = b mod 32.
Proof.
  unfold JS.ToUint32. rewrite two32_pow.
  apply Z.mod_mod_divide. exists (2 ^ 27). reflexivity.
Qed.

(** [(1 << k) >>> 0] is the single bit [k mod 32]. *)
Lemma ushr_shl_1 k : JS.ushr (JS.shl 1 k) 0 = 2 ^ (k mod 32).
Proof.
  rewrite ushr_0. unfold JS.shl. rewrite ToInt32_mod, shift_count.
  assert (Hk : 0 <= k mod 32 < 32) by (apply Z.mod_pos_bound; lia).
  change (JS.ToInt32 1) with 1. rewrite Z.shiftl_1_l.
  apply Z.mod_small. split; [apply Z.pow_nonneg; lia|].
  apply Z.pow_lt_mono_r; lia.
Qed.

(** [(a & b) >>> 0] is the bitwise and of the two unsigned readings. *)
Lemma ushr_band a b :
  JS.ushr (JS.band a b) 0 = Z.land (a mod 2 ^ 32) (b mod 2 ^ 32).
Proof.
  rewrite ushr_0. unfold JS.band.
  rewrite <- (ToInt32_mod a), <- (ToInt32_mod b).
  rewrite <- !Z.land_ones by lia.
  apply Z.bits_inj'. intros n Hn.
  rewrite !Z.land_spec. destruct (Z.testbit (Z.ones 32) n); 
    rewrite ?andb_true_r, ?andb_false_r; reflexivity.
Qed.

Lemma ushr_range x : 0 <= JS.ushr x 0 < 2 ^ 32.
Proof. rewrite ushr_0. apply Z.mod_pos_bound. lia. Qed.

Lemma bit_positive k : 1 <= JS.ushr (JS.shl 1 k) 0.
Proof.
  rewrite ushr_shl_1.
  assert (0 < 2 ^ (k mod 32)); [|lia].
  apply Z.pow_pos_nonneg; [lia|]. apply Z.mod_pos_bound. lia.
Qed.

End JSFacts.

(** ** Closed forms of the two masks *)

Section Masks.

Lemma pow2_double k : 0 <= k -> 2 ^ (k + 1) = 2 * 2 ^ k.
Proof. intros Hk. rewrite Z.pow_add_r by lia. lia. Qed.

Lemma getPrefixMask_loop_closed n : forall i mask,
  0 <= i -> i + Z.of_nat n <= 32 ->
  getPrefixMask_loop n i mask =
    mask + 2 ^ (32 - i) - 2 ^ (32 - i - Z.of_nat n).
Proof.
  induction n as [|n IH]; intros i mask Hi Hn.
  - cbn [getPrefixMask_loop]. rewrite Z.sub_0_r. lia.
  - cbn [getPrefixMask_loop]. rewrite ushr_shl_1, IH by lia.
    rewrite Z.mod_small by lia.
    assert (E : 2 ^ (32 - i) = 2 * 2 ^ (32 - (i + 1)))
      by (rewrite <- pow2_double by lia; f_equal; lia).
    replace (32 - (i + 1) - Z.of_nat n) with (32 - i - Z.of_nat (S n)) by lia.
    lia.
Qed.

Lemma getPrefixMask_closed p :
  0 <= p <= 32 -> getPrefixMask p = 2 ^ 32 - 2 ^ (32 - p).
Proof.
  intros Hp. unfold getPrefixMask.
  rewrite getPrefixMask_loop_closed by lia.
  rewrite Z2Nat.id by lia. rewrite Z.sub_0_r. lia.
Qed.

Lemma getMask_loop_closed n : forall i mask,
  0 <= i -> i + Z.of_nat n <= 32 ->
  getMask_loop n i mask = mask + 2 ^ (i + Z.of_nat n) - 2 ^ i.
Proof.
  induction n as [|n IH]; intros i mask Hi Hn.
  - cbn [getMask_loop]. rewrite Z.add_0_r. lia.
  - cbn [getMask_loop]. rewrite ushr_shl_1, IH by lia.
    rewrite Z.mod_small by lia.
    replace (i + 1 + Z.of_nat n) with (i + Z.of_nat (S n)) by lia.
    pose proof (pow2_double i Hi). lia.
Qed.

Lemma getMask_closed m : 0 <= m <= 32 -> getMask m = 2 ^ m - 1.
Proof.
  intros Hm. unfold getMask. rewrite getMask_loop_closed by lia.
  rewrite Z2Nat.id by lia. cbn. lia.
Qed.

Lemma getMask_ones m : 0 <= m <= 32 -> getMask m = Z.ones m.
Proof. intros Hm. rewrite getMask_closed, Z.ones_equiv by lia. lia. Qed.

Lemma getPrefixMask_shiftl p :
  0 <= p <= 32 -> getPrefixMask p = Z.shiftl (Z.ones p) (32 - p).
Proof.
  intros Hp. rewrite getPrefixMask_closed by lia.
  rewrite Z.shiftl_mul_pow2, Z.ones_equiv by lia.
  unfold Z.pred. rewrite Z.mul_add_distr_r, <- Z.pow_add_r by lia.
  replace (p + (32 - p)) with 32 by lia. lia.
Qed.

Lemma getPrefixMask_range p : 0 <= p <= 32 -> 0 <= getPrefixMask p < 2 ^ 32.
Proof.
  intros Hp. rewrite getPrefixMask_closed by lia.
  assert (0 < 2 ^ (32 - p)) by (apply Z.pow_pos_nonneg; lia).
  assert (2 ^ (32 - p) <= 2 ^ 32) by (apply Z.pow_le_mono_r; lia).
  lia.
Qed.

Lemma getMask_range m : 0 <= m <= 32 -> 0 <= getMask m < 2 ^ 32.
Proof.
  intros Hm. rewrite getMask_closed by lia.
  assert (0 < 2 ^ m) by (apply Z.pow_pos_nonneg; lia).
  assert (2 ^ m <= 2 ^ 32) by (apply Z.pow_le_mono_r; lia).
  lia.
Qed.

Lemma getPrefixMask_testbit p k :
  0 <= p <= 32 ->
  Z.testbit (getPrefixMask p) k = (32 - p <=? k) && (k <? 32).
Proof.
  intros Hp. rewrite getPrefixMask_shiftl by lia.
  destruct (Z.ltb_spec k 0) as [Hk|Hk].
  - rewrite Z.testbit_neg_r by lia.
    destruct (Z.leb_spec (32 - p) k); [lia|reflexivity].
  - rewrite Z.shiftl_spec, Z.testbit_ones by lia.
    destruct (Z.leb_spec 0 (k - (32 - p))), (Z.leb_spec (32 - p) k),
      (Z.ltb_spec (k - (32 - p)) p), (Z.ltb_spec k 32); cbn; lia.
Qed.

Lemma getMask_testbit m k :
  0 <= m <= 32 -> Z.testbit (getMask m) k = (0 <=? k) && (k <? m).
Proof. intros Hm. rewrite getMask_ones by lia. apply Z.testbit_ones. lia. Qed.

(** Past 32 iterations the loops keep adding bits, and the masks leave
    the 32-bit range; with no iteration they stay 0. *)
Lemma getPrefixMask_loop_lower n : forall i mask,
  mask + Z.of_nat n <= getPrefixMask_loop n i mask.
Proof.
  induction n as [|n IH]; intros i mask; cbn [getPrefixMask_loop]; [lia|].
  specialize (IH (i + 1) (mask + JS.ushr (JS.shl 1 (32 - (i + 1))) 0)).
  pose proof (bit_positive (32 - (i + 1))). lia.
Qed.

Lemma getPrefixMask_loop_app n m : forall i mask,
  getPrefixMask_loop (n + m) i mask =
    getPrefixMask_loop m (i + Z.of_nat n) (getPrefixMask_loop n i mask).
Proof.
  induction n as [|n IH]; intros i mask; cbn [Nat.add getPrefixMask_loop].
  - now rewrite Z.add_0_r.
  - rewrite IH. f_equal. lia.
Qed.

Lemma getMask_loop_lower n : forall i mask,
  mask + Z.of_nat n <= getMask_loop n i mask.
Proof.
  induction n as [|n IH]; intros i mask; cbn [getMask_loop]; [lia|].
  specialize (IH (i + 1) (mask + JS.ushr (JS.shl 1 i) 0)).
  pose proof (bit_positive i). lia.
Qed.

Lemma getMask_loop_app n m : forall i mask,
  getMask_loop (n + m) i mask =
    getMask_loop m (i + Z.of_nat n) (getMask_loop n i mask).
Proof.
  induction n as [|n IH]; intros i mask; cbn [Nat.add getMask_loop].
  - now rewrite Z.add_0_r.
  - rewrite IH. f_equal. lia.
Qed.

Lemma getPrefixMask_above p : 32 < p -> 4294967295 < getPrefixMask p.
Proof.
  intros Hp. unfold getPrefixMask.
  replace (Z.to_nat p) with (32 + Z.to_nat (p - 32))%nat by lia.
  rewrite getPrefixMask_loop_app.
  change (getPrefixMask_loop 32 0 0) with (getPrefixMask 32).
  pose proof (getPrefixMask_loop_lower (Z.to_nat (p - 32))
                (0 + Z.of_nat 32) (getPrefixMask 32)) as H.
  change (getPrefixMask 32) with 4294967295 in *. lia.
Qed.

Lemma getMask_above m : 32 < m -> 4294967295 < getMask m.
Proof.
  intros Hm. unfold getMask.
  replace (Z.to_nat m) with (32 + Z.to_nat (m - 32))%nat by lia.
  rewrite getMask_loop_app.
  change (getMask_loop 32 0 0) with (getMask 32).
  pose proof (getMask_loop_lower (Z.to_nat (m - 32))
                (0 + Z.of_nat 32) (getMask 32)) as H.
  change (getMask 32) with 4294967295 in *. lia.
Qed.

Lemma getPrefixMask_nonpos p : p <= 0 -> getPrefixMask p = 0.
Proof.
  intros Hp. unfold getPrefixMask.
  now replace (Z.to_nat p) with 0%nat by lia.
Qed.

End Masks.

(** ** One block *)

Section Block.

Lemma toString_num n :
  0 <= n <= 4294967295 -> toString (IPNum n) = Normal (dotted n).
Proof.
  intros Hn. unfold toString, isDecimalIp, JS.rem.
  rewrite Z.rem_1_r. cbn [Z.eqb andb].
  destruct (Z.leb_spec 0 n), (Z.leb_spec n 4294967295); try lia.
  reflexivity.
Qed.

Lemma toString_num_throw n :
  4294967295 < n -> toString (IPNum n) = Throw (NotANumericIpAddress (IPNum n)).
Proof.
  intros Hn. unfold toString, isDecimalIp.
  destruct (Z.leb_spec n 4294967295); [lia|].
  now rewrite !andb_false_r.
Qed.

(** Masking with the prefix mask clears the host bits. *)
Lemma land_prefix_mask a p :
  0 <= a < 2 ^ 32 -> 0 <= p <= 32 ->
  Z.land a (getPrefixMask p) = 2 ^ (32 - p) * (a / 2 ^ (32 - p)).
Proof.
  intros Ha Hp. rewrite getPrefixMask_shiftl by lia.
  rewrite Z.mul_comm, <- Z.shiftr_div_pow2, <- Z.shiftl_mul_pow2 by lia.
  apply Z.bits_inj'. intros k Hk.
  rewrite Z.land_spec, !Z.shiftl_spec, Z.testbit_ones by lia.
  destruct (Z.ltb_spec (k - (32 - p)) 0) as [Hlt|Hge].
  - rewrite (Z.testbit_neg_r _ (k - (32 - p))) by lia.
    destruct (Z.leb_spec 0 (k - (32 - p))); [lia|].
    now rewrite andb_false_r.
  - rewrite Z.shiftr_spec by lia.
    replace (k - (32 - p) + (32 - p)) with k by lia.
    destruct (Z.leb_spec 0 (k - (32 - p))); [|lia].
    destruct (Z.ltb_spec (k - (32 - p)) p); cbn [andb].
    + now rewrite andb_true_r.
    + rewrite andb_false_r. rewrite <- (Z.mod_small a (2 ^ 32)) by lia.
      symmetry. apply Z.mod_pow2_bits_high. lia.
Qed.

Lemma block_bounds a p :
  0 <= a < 2 ^ 32 -> 0 <= p <= 32 ->
  let low := 2 ^ (32 - p) * (a / 2 ^ (32 - p)) in
  0 <= low <= a /\ a < low + 2 ^ (32 - p) /\ low + 2 ^ (32 - p) <= 2 ^ 32.
Proof.
  intros Ha Hp low. subst low.
  assert (Hpos : 0 < 2 ^ (32 - p)) by (apply Z.pow_pos_nonneg; lia).
  pose proof (Z.div_mod a (2 ^ (32 - p)) ltac:(lia)) as Hdm.
  pose proof (Z.mod_pos_bound a (2 ^ (32 - p)) Hpos) as Hmod.
  assert (Hq : a / 2 ^ (32 - p) < 2 ^ p).
  { apply Z.div_lt_upper_bound; [lia|].
    rewrite <- Z.pow_add_r by lia. replace (32 - p + p) with 32 by lia. lia. }
  assert (Hq0 : 0 <= a / 2 ^ (32 - p)) by (apply Z.div_pos; lia).
  assert (Hsplit : 2 ^ 32 = 2 ^ (32 - p) * 2 ^ p).
  { rewrite <- Z.pow_add_r by lia. f_equal. lia. }
  nia.
Qed.

(** For a prefix size between 0 and 32 the descriptor is built
    without an error, whatever integer the address is. *)
Lemma getMaskRange_Normal ipNum p :
  0 <= p <= 32 ->
  let a := ipNum mod 2 ^ 32 in
  let low := Z.land a (getPrefixMask p) in
  let high := low + getMask (32 - p) in
  getMaskRange ipNum p =
    Normal {| ipLow := low;
              ipLowStr := dotted low;
              ipHigh := high;
              ipHighStr := dotted high;
              prefixMask := getPrefixMask p;
              prefixMaskStr := dotted (getPrefixMask p);
              prefixSize := p;
              invertedMask := getMask (32 - p);
              invertedMaskStr := dotted (getMask (32 - p));
              invertedMaskSize := 32 - p |}
  /\ 0 <= low <= a /\ low <= high < 2 ^ 32.
Proof.
  intros Hp a low high.
  assert (Ha : 0 <= a < 2 ^ 32) by (apply Z.mod_pos_bound; lia).
  pose proof (getPrefixMask_range p Hp) as HP.
  pose proof (getMask_range (32 - p) ltac:(lia)) as HM.
  pose proof (block_bounds a p Ha Hp) as HB. cbv zeta in HB.
  assert (Hlow : low = 2 ^ (32 - p) * (a / 2 ^ (32 - p)))
    by (apply land_prefix_mask; lia).
  assert (Hhigh : high = low + 2 ^ (32 - p) - 1).
  { unfold high. rewrite getMask_closed by lia. lia. }
  assert (Hpos : 0 < 2 ^ (32 - p)) by (apply Z.pow_pos_nonneg; lia).
  split; [|lia].
  unfold getMaskRange. rewrite ushr_band.
  rewrite (Z.mod_small (getPrefixMask p)) by lia.
  fold a. fold low. rewrite ushr_0.
  rewrite (Z.mod_small (low + getMask (32 - p))) by (fold high; lia).
  fold high.
  rewrite !toString_num by lia. reflexivity.
Qed.

Lemma getMaskRange_fields ipNum p r :
  0 <= p <= 32 -> getMaskRange ipNum p = Normal r ->
  ipLow r = Z.land (ipNum mod 2 ^ 32) (getPrefixMask p) /\
  ipHigh r = ipLow r + getMask (32 - p) /\
  prefixMask r = getPrefixMask p /\
  invertedMask r = getMask (32 - p) /\
  prefixSize r = p /\
  invertedMaskSize r = 32 - p /\
  0 <= ipLow r <= ipNum mod 2 ^ 32 /\
  ipLow r <= ipHigh r < 2 ^ 32.
Proof.
  intros Hp Hr.
  destruct (getMaskRange_Normal ipNum p Hp) as (Hn & Hlo & Hhi).
  cbv zeta in Hn, Hlo, Hhi.
  assert (E : Normal r = Normal _) by (rewrite <- Hr; exact Hn).
  apply (f_equal (fun c => match c with Normal x => x | _ => r end)) in E.
  rewrite E. repeat split; try reflexivity; apply Hlo || apply Hhi.
Qed.

(** Outside 0..32 the descriptor is not built: the [toString] of the
    mask that has left the 32-bit range throws. *)
Lemma getMaskRange_throws ipNum p :
  (32 < p ->
   getMaskRange ipNum p =
     Throw (NotANumericIpAddress (IPNum (getPrefixMask p)))) /\
  (p < 0 ->
   getMaskRange ipNum p =
     Throw (NotANumericIpAddress (IPNum (getMask (32 - p))))).
Proof.
  pose proof (ushr_range (JS.band ipNum (getPrefixMask p))).
  pose proof (ushr_range (JS.ushr (JS.band ipNum (getPrefixMask p)) 0
                          + getMask (32 - p))).
  split; intros Hp; unfold getMaskRange;
    rewrite !toString_num by lia; cbn [bind].
  - now rewrite toString_num_throw by (now apply getPrefixMask_above).
  - rewrite getPrefixMask_nonpos by lia.
    rewrite toString_num by lia. cbn [bind].
    now rewrite toString_num_throw by (apply getMask_above; lia).
Qed.

End Block.

(** ** The widest block from an address *)

Section Optimal.

Variables ipNum ipEndNum : Z.

(** The loop test in arithmetic: the address is a multiple of the
    block size and the block ends no later than [ipEndNum]. *)
Lemma fits_iff p :
  0 <= p <= 32 ->
  fits ipNum ipEndNum p = true <->
  0 <= ipNum < 2 ^ 32 /\ ipNum mod 2 ^ (32 - p) = 0 /\
  ipNum + 2 ^ (32 - p) - 1 <= ipEndNum.
Proof.
  intros Hp. unfold fits.
  destruct (getMaskRange_Normal ipNum p Hp) as (-> & Hlow & Hhigh).
  cbn [ipLow ipHigh]. rewrite andb_true_iff, Z.eqb_eq, Z.leb_le.
  assert (Hpos : 0 < 2 ^ (32 - p)) by (apply Z.pow_pos_nonneg; lia).
  assert (Hr : 0 <= ipNum mod 2 ^ 32 < 2 ^ 32) by (apply Z.mod_pos_bound; lia).
  rewrite getMask_closed by lia.
  split.
  - intros [Heq Hle].
    assert (Hin : 0 <= ipNum < 2 ^ 32) by lia.
    rewrite (Z.mod_small ipNum (2 ^ 32)) in * by lia.
    rewrite land_prefix_mask in * by lia.
    pose proof (Z.div_mod ipNum (2 ^ (32 - p)) ltac:(lia)). lia.
  - intros (Hin & Hmod & Hle).
    rewrite (Z.mod_small ipNum (2 ^ 32)) in * by lia.
    rewrite land_prefix_mask in * by lia.
    pose proof (Z.div_mod ipNum (2 ^ (32 - p)) ltac:(lia)). lia.
Qed.

(** A narrower block fits wherever a wider one does, so the first
    failure of the downward search is final. *)
Lemma fits_mono p q :
  0 <= p <= q -> q <= 32 ->
  fits ipNum ipEndNum p = true -> fits ipNum ipEndNum q = true.
Proof.
  intros Hpq Hq. rewrite !fits_iff by lia. intros (Hin & Hmod & Hle).
  assert (Hpos : 0 < 2 ^ (32 - q)) by (apply Z.pow_pos_nonneg; lia).
  assert (Hsplit : 2 ^ (32 - p) = 2 ^ (32 - q) * 2 ^ (q - p)).
  { rewrite <- Z.pow_add_r by lia. f_equal. lia. }
  assert (Hk : 0 < 2 ^ (q - p)) by (apply Z.pow_pos_nonneg; lia).
  repeat split; try lia.
  - apply Z.mod_divide; [lia|].
    apply Z.mod_divide in Hmod; [|lia].
    eapply Z.divide_trans; [|exact Hmod].
    exists (2 ^ (q - p)). lia.
  - nia.
Qed.

Lemma getOptimalRange_loop_spec n : forall p acc,
  Z.of_nat n = p + 1 -> p <= 32 ->
  exists o,
    getOptimalRange_loop n ipNum ipEndNum p acc = Normal o /\
    ((o = acc /\ (p = -1 \/ fits ipNum ipEndNum p = false)) \/
     (exists q r,
         0 <= q <= p /\ o = Some r /\
         getMaskRange ipNum q = Normal r /\
         (forall j, q <= j <= p -> fits ipNum ipEndNum j = true) /\
         (q = 0 \/ fits ipNum ipEndNum (q - 1) = false))).
Proof.
  induction n as [|n IH]; intros p acc Hn Hp.
  - exists acc. cbn. split; [reflexivity|]. left. split; [reflexivity|lia].
  - cbn [getOptimalRange_loop].
    destruct (getMaskRange_Normal ipNum p ltac:(lia)) as (Hr & _).
    cbv zeta in Hr.
    match type of Hr with _ = Normal ?r => set (r0 := r) in * end.
    assert (Hfits := eq_refl (fits ipNum ipEndNum p)).
    unfold fits at 1 in Hfits. rewrite Hr in *. cbn [bind].
    rewrite Hfits. clear Hfits.
    destruct (fits ipNum ipEndNum p) eqn:Hf.
    + destruct (IH (p - 1) (Some r0) ltac:(lia) ltac:(lia))
        as (o & Hrun & Hcase).
      exists o. split; [exact Hrun|]. right.
      destruct Hcase as [[-> Hstop] | (q & r & Hq & -> & Hmr & Hall & Hend)].
      * exists p, r0. repeat split; try lia; try exact Hr.
        -- intros j Hj. now replace j with p by lia.
        -- destruct Hstop; [left; lia | now right].
      * exists q, r. repeat split; try lia; try assumption.
        intros j Hj. destruct (Z.eq_dec j p) as [->|]; [exact Hf|].
        apply Hall. lia.
    + exists acc. split; [reflexivity|]. left. now split; [|right].
Qed.

Lemma getOptimalRange_spec :
  exists o,
    getOptimalRange ipNum ipEndNum = Normal o /\
    ((o = None /\ fits ipNum ipEndNum 32 = false) \/
     (exists q r,
         0 <= q <= 32 /\ o = Some r /\
         getMaskRange ipNum q = Normal r /\
         (forall j, q <= j <= 32 -> fits ipNum ipEndNum j = true) /\
         (q = 0 \/ fits ipNum ipEndNum (q - 1) = false))).
Proof.
  destruct (getOptimalRange_loop_spec 33 32 None eq_refl ltac:(lia))
    as (o & Hrun & Hcase).
  exists o. split; [exact Hrun|].
  destruct Hcase as [[-> [Hp|Hf]] | H]; [lia | now left | now right].
Qed.

(** From a valid address no later than the end, the search finds a
    block that starts there and stays within the end. *)
Lemma getOptimalRange_Some :
  0 <= ipNum <= 4294967295 -> ipNum <= ipEndNum ->
  exists r,
    getOptimalRange ipNum ipEndNum = Normal (Some r) /\
    ipLow r = ipNum /\ ipNum <= ipHigh r <= ipEndNum.
Proof.
  intros Hin Hle.
  assert (H32 : fits ipNum ipEndNum 32 = true).
  { apply fits_iff; [lia|]. replace (32 - 32) with 0 by lia.
    change (2 ^ 0) with 1. rewrite Z.mod_1_r. lia. }
  destruct getOptimalRange_spec
    as (o & Hrun & [[_ Hf] | (q & r & Hq & -> & Hmr & Hall & _)]).
  - congruence.
  - exists r. split; [exact Hrun|].
    specialize (Hall q ltac:(lia)). unfold fits in Hall. rewrite Hmr in Hall.
    apply andb_true_iff in Hall as [Hl Hh].
    apply Z.eqb_eq in Hl. apply Z.leb_le in Hh.
    destruct (getMaskRange_fields ipNum q r ltac:(lia) Hmr)
      as (_ & _ & _ & _ & _ & _ & _ & Hlh).
    lia.
Qed.

End Optimal.

(** ** Decomposition of a range *)

Section Decompose.

Variable ipEndNum : Z.

(** With a budget no smaller than the number of addresses left, the
    loop ends normally: it appends to the collection blocks that lie
    end to end up to [ipEndNum], each the result of the search at
    its own low address. *)
Lemma calculate_loop_tiles fuel : forall ipCurNum rangeCollection,
  0 <= ipCurNum -> ipEndNum <= 4294967295 -> ipCurNum <= ipEndNum + 1 ->
  ipEndNum - ipCurNum + 1 <= Z.of_nat fuel ->
  exists l,
    calculate_loop fuel ipCurNum ipEndNum rangeCollection =
      Normal (Some (rangeCollection ++ l)) /\
    tiles ipCurNum l ipEndNum /\
    Forall (fun b => getOptimalRange (ipLow b) ipEndNum = Normal (Some b)) l.
Proof.
  induction fuel as [|fuel IH]; intros cur acc Hcur Hend Hle Hfuel.
  - exists []. cbn [calculate_loop].
    destruct (Z.leb_spec cur ipEndNum); [lia|].
    rewrite app_nil_r. repeat split; [cbn; lia | constructor].
  - cbn [calculate_loop]. destruct (Z.leb_spec cur ipEndNum) as [Hin|Hout].
    + destruct (getOptimalRange_Some cur ipEndNum ltac:(lia) Hin)
        as (r & Hr & Hlow & Hhigh).
      rewrite Hr. cbn [bind].
      destruct (IH (ipHigh r + 1) (acc ++ [r])) as (l & Hrun & Ht & Hall);
        try lia.
      exists (r :: l). rewrite Hrun, <- app_assoc. cbn [app].
      repeat split; try assumption; try lia.
      constructor; [now rewrite Hlow | exact Hall].
    + exists []. rewrite app_nil_r. repeat split; [cbn; lia | constructor].
Qed.

(** More budget than needed changes nothing: a loop that has ended
    normally ends the same way on any larger budget. *)
Lemma calculate_loop_more_fuel fuel : forall ipCurNum rangeCollection v k,
  calculate_loop fuel ipCurNum ipEndNum rangeCollection = Normal v ->
  calculate_loop (fuel + k) ipCurNum ipEndNum rangeCollection = Normal v.
Proof.
  induction fuel as [|fuel IH]; intros cur acc v k.
  - cbn [calculate_loop]. destruct k; cbn [Nat.add calculate_loop];
      destruct (cur <=? ipEndNum); intros H; congruence.
  - cbn [Nat.add calculate_loop]. destruct (cur <=? ipEndNum); [|trivial].
    destruct (getOptimalRange cur ipEndNum) as [[r|]| |]; cbn [bind];
      try congruence.
    apply IH.
Qed.

End Decompose.

Section Tiling.

Lemma tiles_le cur l last : tiles cur l last -> cur <= last + 1.
Proof.
  revert cur. induction l as [|b l IH]; intros cur; cbn [tiles].
  - lia.
  - intros (_ & Hb & _). lia.
Qed.

(** Blocks lying end to end hold each address of the interval
    exactly once, and no other address. *)
Lemma tiles_cover_once l : forall cur last x,
  tiles cur l last ->
  List.length (filter (covers x) l) =
    if (cur <=? x) && (x <=? last) then 1%nat else 0%nat.
Proof.
  induction l as [|b l IH]; intros cur last x; cbn [tiles filter].
  - intros ->. cbn [List.length].
    destruct (Z.leb_spec (last + 1) x), (Z.leb_spec x last);
      cbn [andb]; reflexivity || lia.
  - intros (Hlow & Hb & Ht). pose proof (tiles_le _ _ _ Ht) as Hle.
    specialize (IH _ _ x Ht). unfold covers at 1. rewrite Hlow.
    destruct (Z.leb_spec cur x), (Z.leb_spec x (ipHigh b)),
      (Z.leb_spec x last), (Z.leb_spec (ipHigh b + 1) x);
      cbn [andb List.length] in *; try lia.
Qed.

Lemma tiles_lows_above cur l last :
  tiles cur l last -> Forall (fun y => cur <= y) (map ipLow l).
Proof.
  revert cur. induction l as [|b l IH]; intros cur; cbn [tiles map].
  - constructor.
  - intros (Hlow & Hb & Ht). constructor; [lia|].
    eapply Forall_impl; [|exact (IH _ Ht)]. cbn. intros; lia.
Qed.

Lemma tiles_sorted cur l last :
  tiles cur l last -> StronglySorted Z.lt (map ipLow l).
Proof.
  revert cur. induction l as [|b l IH]; intros cur; cbn [tiles map].
  - constructor.
  - intros (Hlow & Hb & Ht). constructor; [exact (IH _ Ht)|].
    eapply Forall_impl; [|exact (tiles_lows_above _ _ _ Ht)].
    cbn. intros; lia.
Qed.

Lemma tiles_last cur l last :
  tiles cur l last -> l <> [] ->
  exists b, nth_error l (List.length l - 1) = Some b /\ ipHigh b = last.
Proof.
  revert cur. induction l as [|a l IH]; intros cur Ht Hne; [congruence|].
  destruct Ht as (Hlow & Hb & Ht). destruct l as [|a' l].
  - exists a. cbn in Ht. split; [reflexivity | lia].
  - destruct (IH _ Ht ltac:(discriminate)) as (z & Hz & Hh).
    exists z. split; [|exact Hh].
    replace (List.length (a :: a' :: l) - 1)%nat
      with (S (List.length (a' :: l) - 1)) by (cbn [List.length]; lia).
    exact Hz.
Qed.

Lemma tiles_consecutive l : forall cur last i b b',
  tiles cur l last ->
  nth_error l i = Some b -> nth_error l (S i) = Some b' ->
  ipLow b' = ipHigh b + 1.
Proof.
  induction l as [|a l IH]; intros cur last i b b' Ht Hb Hb'.
  - destruct i; discriminate.
  - destruct Ht as (_ & _ & Ht). destruct i as [|i].
    + injection Hb as <-. destruct l as [|a' l]; [discriminate|].
      injection Hb' as <-. now destruct Ht as (-> & _).
    + exact (IH _ _ i b b' Ht Hb Hb').
Qed.

Lemma tiles_within cur l last :
  tiles cur l last ->
  Forall (fun b => cur <= ipLow b /\ ipLow b <= ipHigh b <= last) l.
Proof.
  revert cur. induction l as [|a l IH]; intros cur; cbn [tiles].
  - constructor.
  - intros (Hlow & Hb & Ht). constructor; [lia|].
    eapply Forall_impl; [|exact (IH _ Ht)]. cbn. intros; lia.
Qed.

End Tiling.

(** ** The codec *)

(** Take apart what is known of each of the four groups. *)
Ltac groups :=
  repeat match goal with
         | H : Forall _ (_ :: _) |- _ =>
             apply Forall_cons_iff in H as [[? ?] H]
         | H : Forall _ [] |- _ => clear H
         | H : _ && _ = true |- _ => apply andb_true_iff in H as [? H]
         end.

Section Codec.

Lemma octets_complete x : 0 <= x < 256 -> In x octets.
Proof.
  intros Hx. unfold octets. rewrite <- (Z2Nat.id x) by lia.
  apply in_map, in_seq. lia.
Qed.

(** An octet prints as one to three digits without a leading zero,
    and reads back as itself: checked on all 256 of them. *)
Lemma octet_print_read x :
  0 <= x < 256 ->
  digit_group (number_to_string x) = true /\
  decimal_value (number_to_string x) = x /\
  no_leading_zero (number_to_string x) = true.
Proof.
  intros Hx.
  assert (Hall : forallb (fun x =>
             digit_group (number_to_string x)
             && (decimal_value (number_to_string x) =? x)
             && no_leading_zero (number_to_string x)) octets = true)
    by (vm_compute; reflexivity).
  rewrite forallb_forall in Hall.
  specialize (Hall x (octets_complete x Hx)).
  apply andb_true_iff in Hall as [Hall H3].
  apply andb_true_iff in Hall as [H1 H2].
  apply Z.eqb_eq in H2. auto.
Qed.

(** Replace the value read from a printed octet by the octet. *)
Ltac read_octets :=
  repeat match goal with
         | |- context [decimal_value (number_to_string ?x)] =>
             let E := fresh "E" in
             assert (E : decimal_value (number_to_string x) = x)
               by (apply octet_print_read, Z.mod_pos_bound; lia);
             rewrite E; clear E
         end.

Lemma is_digit_not_dot c : is_digit c = true -> Ascii.eqb c "." = false.
Proof.
  intros Hd. destruct (Ascii.eqb_spec c ".") as [->|]; [|reflexivity].
  discriminate Hd.
Qed.

Lemma split_nonempty sep s : split sep s <> [].
Proof.
  destruct s as [|c s]; cbn [split]; [discriminate|].
  destruct (Ascii.eqb c sep); [discriminate|].
  destruct (split sep s); discriminate.
Qed.

Lemma split_digits g : all_digits g = true -> split "." g = [g].
Proof.
  induction g as [|c g IH]; cbn [all_digits split]; [reflexivity|].
  intros H. apply andb_true_iff in H as [Hc Hg].
  now rewrite (is_digit_not_dot c Hc), (IH Hg).
Qed.

Lemma split_group g rest :
  all_digits g = true ->
  split "." (g ++ String "." rest)%string = g :: split "." rest.
Proof.
  induction g as [|c g IH]; cbn [all_digits split append]; [reflexivity|].
  intros H. apply andb_true_iff in H as [Hc Hg].
  now rewrite (is_digit_not_dot c Hc), (IH Hg).
Qed.

(** Cutting at the dots loses nothing: the pieces put back together
    with dots are the string. *)
Lemma split_join s : join_dots (split "." s) = s.
Proof.
  induction s as [|c s IH]; cbn [split]; [reflexivity|].
  destruct (Ascii.eqb_spec c ".") as [->|Hc].
  - destruct (split "." s) as [|g gs] eqn:E;
      [now apply split_nonempty in E|].
    change (join_dots (EmptyString :: g :: gs))
      with (String "." (join_dots (g :: gs))).
    now rewrite IH.
  - destruct (split "." s) as [|g gs] eqn:E;
      [now apply split_nonempty in E|].
    destruct gs as [|g' gs].
    + cbn [join_dots] in *. now rewrite IH.
    + change (join_dots (String c g :: g' :: gs))
        with (String c (join_dots (g :: g' :: gs))).
      now rewrite IH.
Qed.

Lemma isIp_str_inv s :
  isIp (IPStr s) = true ->
  exists a b c d,
    split "." s = [a; b; c; d] /\
    Forall (fun g => digit_group g = true /\ 0 <= decimal_value g <= 255)
      [a; b; c; d].
Proof.
  unfold isIp, match_ip.
  destruct (split "." s) as [|a [|b [|c [|d [|? ?]]]]]; try discriminate.
  destruct (digit_group a) eqn:Ha; [|discriminate].
  destruct (digit_group b) eqn:Hb; [|discriminate].
  destruct (digit_group c) eqn:Hc; [|discriminate].
  destruct (digit_group d) eqn:Hd; [|discriminate].
  cbn [andb isIp_loop]. intros H. exists a, b, c, d. split; [reflexivity|].
  repeat match type of H with
         | (if ?t then _ else _) = true =>
             let E := fresh "E" in
             destruct t eqn:E; [discriminate|];
             apply orb_false_iff in E as [?%Z.ltb_ge ?%Z.ltb_ge]
         end.
  repeat constructor; assumption.
Qed.

Lemma isIp_str_intro s a b c d :
  split "." s = [a; b; c; d] ->
  Forall (fun g => digit_group g = true /\ 0 <= decimal_value g <= 255)
    [a; b; c; d] ->
  isIp (IPStr s) = true.
Proof.
  intros Hs Hall. unfold isIp, match_ip. rewrite Hs.
  groups.
  repeat match goal with
         | H : digit_group _ = true |- _ => rewrite H; clear H
         end.
  cbn [andb isIp_loop].
  repeat match goal with
         | |- (if (?x <? ?y) || (?z <? ?w) then _ else _) = true =>
             destruct (Z.ltb_spec x y); [lia|];
             destruct (Z.ltb_spec z w); [lia|]; cbn [orb]
         end.
  reflexivity.
Qed.

Lemma toDecimal_str s a b c d :
  isIp (IPStr s) = true -> split "." s = [a; b; c; d] ->
  toDecimal (IPStr s) =
    Normal (((decimal_value a * 256 + decimal_value b) * 256
             + decimal_value c) * 256 + decimal_value d).
Proof. intros Hip Hs. unfold toDecimal. rewrite Hip, Hs. reflexivity. Qed.

(** Whatever [toDecimal] returns is an integer address. *)
Lemma toDecimal_range v n :
  toDecimal v = Normal n -> 0 <= n <= 4294967295.
Proof.
  destruct v as [s|m].
  - destruct (isIp (IPStr s)) eqn:Hip.
    + destruct (isIp_str_inv s Hip) as (a & b & c & d & Hs & Hall).
      rewrite (toDecimal_str s a b c d Hip Hs). intros [= <-].
      groups. lia.
    + unfold toDecimal. rewrite Hip. discriminate.
  - unfold toDecimal, isDecimalIp.
    destruct (JS.rem m 1 =? 0); [|discriminate].
    destruct (Z.leb_spec 0 m); [|discriminate].
    destruct (Z.leb_spec m 4294967295); [|discriminate].
    intros [= <-]. lia.
Qed.

Lemma toDecimal_num n :
  0 <= n <= 4294967295 -> toDecimal (IPNum n) = Normal n.
Proof.
  intros Hn. unfold toDecimal, isDecimalIp, JS.rem. rewrite Z.rem_1_r.
  destruct (Z.leb_spec 0 n), (Z.leb_spec n 4294967295); try lia.
  reflexivity.
Qed.

(** [toDecimal] throws exactly on what neither validity test accepts. *)
Lemma toDecimal_throw v :
  isIp v = false -> isDecimalIp v = false ->
  toDecimal v = Throw (NotAnIpAddress v).
Proof.
  intros Hs Hn. destruct v; unfold toDecimal; now rewrite ?Hs, ?Hn.
Qed.

(** The four octets of an integer address, most significant first. *)
Lemma dotted_octets n :
  0 <= n ->
  dotted n =
    join_dots [number_to_string ((n / 256 / 256 / 256) mod 256);
               number_to_string ((n / 256 / 256) mod 256);
               number_to_string ((n / 256) mod 256);
               number_to_string (n mod 256)].
Proof.
  intros Hn. unfold dotted, JS.rem, JS.floor_div.
  cbn [toString_loop join_dots]. unfold JS.rem, JS.floor_div.
  assert (H1 : 0 <= n / 256) by (apply Z.div_pos; lia).
  assert (H2 : 0 <= n / 256 / 256) by (apply Z.div_pos; lia).
  assert (H3 : 0 <= n / 256 / 256 / 256) by (apply Z.div_pos; lia).
  rewrite !Z.rem_mod_nonneg by lia.
  reflexivity.
Qed.

Lemma digit_group_all_digits g : digit_group g = true -> all_digits g = true.
Proof.
  unfold digit_group. intros H.
  apply andb_true_iff in H as [H _]. now apply andb_true_iff in H as [H _].
Qed.

Lemma dotted_split n :
  0 <= n ->
  split "." (dotted n) =
    [number_to_string ((n / 256 / 256 / 256) mod 256);
     number_to_string ((n / 256 / 256) mod 256);
     number_to_string ((n / 256) mod 256);
     number_to_string (n mod 256)].
Proof.
  intros Hn. rewrite dotted_octets by lia. cbn [join_dots].
  rewrite !split_group, split_digits; try reflexivity;
    apply digit_group_all_digits, octet_print_read, Z.mod_pos_bound; lia.
Qed.

(** Number to string and back. *)
Lemma toDecimal_dotted n :
  0 <= n <= 4294967295 -> toDecimal (IPStr (dotted n)) = Normal n.
Proof.
  intros Hn. pose proof (dotted_split n ltac:(lia)) as Hs.
  assert (Hip : isIp (IPStr (dotted n)) = true).
  { eapply isIp_str_intro; [exact Hs|].
    assert (Hoct : forall x, 0 <= x < 256 ->
              digit_group (number_to_string x) = true /\
              0 <= decimal_value (number_to_string x) <= 255).
    { intros x Hx. destruct (octet_print_read x Hx) as (H1 & H2 & _).
      rewrite H2. split; [exact H1 | lia]. }
    repeat (apply Forall_cons; [apply Hoct, Z.mod_pos_bound; lia|]).
    apply Forall_nil. }
  rewrite (toDecimal_str _ _ _ _ _ Hip Hs). f_equal.
  read_octets.
  pose proof (Z.div_mod n 256 ltac:(lia)).
  pose proof (Z.div_mod (n / 256) 256 ltac:(lia)).
  pose proof (Z.div_mod (n / 256 / 256) 256 ltac:(lia)).
  assert (Hsmall : 0 <= n / 256 / 256 / 256 < 256).
  { split; [repeat apply Z.div_pos; lia|].
    repeat (apply Z.div_lt_upper_bound; [lia|]). lia. }
  rewrite (Z.mod_small (n / 256 / 256 / 256)) by lia. lia.
Qed.

Lemma is_digit_inv c :
  is_digit c = true ->
  In c ["0"; "1"; "2"; "3"; "4"; "5"; "6"; "7"; "8"; "9"]%char.
Proof.
  destruct c as [[] [] [] [] [] [] [] []]; intros H;
    try discriminate H; cbn; tauto.
Qed.

(** A group without a leading zero is how its value prints: checked
    on all groups of one to three digits. *)
Lemma canonical_group g :
  digit_group g = true -> 0 <= decimal_value g <= 255 ->
  no_leading_zero g = true ->
  number_to_string (decimal_value g) = g.
Proof.
  intros Hg. pose proof (digit_group_all_digits g Hg) as Hd.
  destruct g as [|c1 [|c2 [|c3 [|c4 g]]]];
    try (cbn in Hg; rewrite ?andb_false_r in Hg; discriminate Hg).
  - cbn [all_digits] in Hd. rewrite andb_true_r in Hd.
    apply is_digit_inv in Hd. intros _ _.
    repeat destruct Hd as [<-|Hd]; try reflexivity; destruct Hd.
  - cbn [all_digits] in Hd. rewrite andb_true_r in Hd.
    apply andb_true_iff in Hd as [H1 H2].
    apply is_digit_inv in H1, H2. intros _.
    repeat destruct H1 as [<-|H1]; try destruct H1;
      repeat destruct H2 as [<-|H2]; try destruct H2;
      intros H0; try discriminate H0; reflexivity.
  - cbn [all_digits] in Hd. rewrite andb_true_r in Hd.
    apply andb_true_iff in Hd as [H1 Hd].
    apply andb_true_iff in Hd as [H2 H3].
    apply is_digit_inv in H1, H2, H3.
    repeat destruct H1 as [<-|H1]; try destruct H1;
      intros Hv H0; try discriminate H0;
      repeat destruct H2 as [<-|H2]; try destruct H2;
      repeat destruct H3 as [<-|H3]; try destruct H3;
      try reflexivity; exfalso; vm_compute in Hv; destruct Hv as [_ Hv];
      apply Hv; reflexivity.
  - exfalso. unfold digit_group in Hg. cbn [String.length] in Hg.
    apply andb_true_iff in Hg as [_ Hg]. apply Z.leb_le in Hg. lia.
Qed.

Lemma dotted_canonical n : 0 <= n -> canonical (dotted n) = true.
Proof.
  intros Hn. unfold canonical. rewrite dotted_split by lia.
  cbn [forallb].
  repeat match goal with
         | |- context [no_leading_zero (number_to_string ?x)] =>
             let E := fresh "E" in
             destruct (octet_print_read x ltac:(apply Z.mod_pos_bound; lia))
               as (_ & _ & E); rewrite E; clear E
         end.
  reflexivity.
Qed.

Lemma octets_of_fold a b c d :
  0 <= a <= 255 -> 0 <= b <= 255 -> 0 <= c <= 255 -> 0 <= d <= 255 ->
  let n := ((a * 256 + b) * 256 + c) * 256 + d in
  (n / 256 / 256 / 256) mod 256 = a /\ (n / 256 / 256) mod 256 = b /\
  (n / 256) mod 256 = c /\ n mod 256 = d.
Proof.
  intros Ha Hb Hc Hd n.
  assert (E1 : n / 256 = (a * 256 + b) * 256 + c).
  { symmetry. apply (Z.div_unique_pos n 256 _ d); unfold n; lia. }
  assert (E2 : n / 256 / 256 = a * 256 + b).
  { rewrite E1. symmetry.
    apply (Z.div_unique_pos _ 256 _ c); lia. }
  assert (E3 : n / 256 / 256 / 256 = a).
  { rewrite E2. symmetry. apply (Z.div_unique_pos _ 256 _ b); lia. }
  rewrite E3, E2, E1. repeat split.
  - apply Z.mod_small. lia.
  - symmetry. apply (Z.mod_unique_pos _ 256 a b); lia.
  - symmetry. apply (Z.mod_unique_pos _ 256 (a * 256 + b) c); lia.
  - symmetry.
    apply (Z.mod_unique_pos _ 256 ((a * 256 + b) * 256 + c) d); unfold n; lia.
Qed.

(** String to number and back gives the string again exactly when
    the string is in canonical form. *)
Lemma dotted_toDecimal s n :
  isIp (IPStr s) = true -> toDecimal (IPStr s) = Normal n ->
  dotted n = s <-> canonical s = true.
Proof.
  intros Hip Hn. split.
  - intros <-. apply dotted_canonical.
    now apply toDecimal_range in Hn.
  - intros Hcan.
    destruct (isIp_str_inv s Hip) as (a & b & c & d & Hs & Hall).
    rewrite (toDecimal_str s a b c d Hip Hs) in Hn. injection Hn as <-.
    unfold canonical in Hcan. rewrite Hs in Hcan. cbn [forallb] in Hcan.
    groups.
    rewrite dotted_octets by lia.
    destruct (octets_of_fold (decimal_value a) (decimal_value b)
                (decimal_value c) (decimal_value d)) as (-> & -> & -> & ->);
      try lia.
    rewrite !canonical_group by assumption.
    rewrite <- Hs. apply split_join.
Qed.

End Codec.

(** ** The prefix of a subnet mask *)

Section Prefix.

Variable subnetMaskNum : Z.
Hypothesis mask_range : 0 <= subnetMaskNum < 2 ^ 32.

(** [(x + (1 << k)) >>> 0]: the shift may give a negative number
    (for bit 31), the final conversion brings the sum back. *)
Lemma ushr_add_shl_1 x k :
  JS.ushr (x + JS.shl 1 k) 0 = (x + 2 ^ (k mod 32)) mod 2 ^ 32.
Proof.
  rewrite ushr_0, <- (Z.add_mod_idemp_r x (JS.shl 1 k)) by lia.
  now rewrite <- (ushr_0 (JS.shl 1 k)), ushr_shl_1.
Qed.

Lemma next_prefix ps :
  0 <= ps < 32 ->
  JS.ushr (getPrefixMask ps + JS.shl 1 (32 - (ps + 1))) 0 =
    getPrefixMask (ps + 1).
Proof.
  intros Hps. rewrite ushr_add_shl_1.
  rewrite (Z.mod_small (32 - (ps + 1)) 32) by lia.
  pose proof (getPrefixMask_range (ps + 1) ltac:(lia)) as Hr.
  rewrite !getPrefixMask_closed in * by lia.
  replace (32 - (ps + 1)) with (31 - ps) in * by lia.
  assert (E : 2 ^ (32 - ps) = 2 * 2 ^ (31 - ps))
    by (rewrite <- pow2_double by lia; f_equal; lia).
  rewrite Z.mod_small; lia.
Qed.

(** One more leading bit lies within the mask exactly when the mask
    has that bit set, the bits above it being known to be set. *)
Lemma extend_prefix ps :
  0 <= ps < 32 ->
  Z.land subnetMaskNum (getPrefixMask ps) = getPrefixMask ps ->
  Z.land subnetMaskNum (getPrefixMask (ps + 1)) = getPrefixMask (ps + 1)
  <-> Z.testbit subnetMaskNum (31 - ps) = true.
Proof.
  intros Hps Hinv. split.
  - intros H. apply (f_equal (fun z => Z.testbit z (31 - ps))) in H.
    rewrite Z.land_spec, getPrefixMask_testbit in H by lia.
    destruct (Z.leb_spec (32 - (ps + 1)) (31 - ps)); [|lia].
    destruct (Z.ltb_spec (31 - ps) 32); [|lia].
    cbn [andb] in H. now rewrite andb_true_r in H.
  - intros Hbit. apply Z.bits_inj'. intros k Hk.
    rewrite Z.land_spec, getPrefixMask_testbit by lia.
    apply (f_equal (fun z => Z.testbit z k)) in Hinv.
    rewrite Z.land_spec, getPrefixMask_testbit in Hinv by lia.
    destruct (Z.leb_spec (32 - (ps + 1)) k), (Z.ltb_spec k 32),
      (Z.leb_spec (32 - ps) k); cbn [andb] in *;
      rewrite ?andb_true_r, ?andb_false_r in *; try reflexivity; try lia;
      try exact Hinv.
    now replace k with (31 - ps) by lia.
Qed.

Lemma calculateCIDRPrefix_loop_spec n : forall ps,
  0 <= ps -> ps + Z.of_nat n = 32 ->
  Z.land subnetMaskNum (getPrefixMask ps) = getPrefixMask ps ->
  calculateCIDRPrefix_loop n subnetMaskNum (getPrefixMask ps) ps =
    ps + leading_ones_from n subnetMaskNum (31 - ps).
Proof.
  induction n as [|n IH]; intros ps Hps Hn Hinv.
  - cbn. lia.
  - cbn [calculateCIDRPrefix_loop leading_ones_from].
    rewrite next_prefix, ushr_band by lia.
    pose proof (getPrefixMask_range (ps + 1) ltac:(lia)) as Hr.
    rewrite !Z.mod_small by lia.
    pose proof (extend_prefix ps ltac:(lia) Hinv) as Hext.
    destruct (Z.eqb_spec (Z.land subnetMaskNum (getPrefixMask (ps + 1)))
                (getPrefixMask (ps + 1))) as [Heq|Hne]; cbn [negb].
    + rewrite (proj1 Hext Heq), IH by (lia || assumption).
      replace (31 - (ps + 1)) with (31 - ps - 1) by lia. lia.
    + destruct (Z.testbit subnetMaskNum (31 - ps)); [|lia].
      exfalso. apply Hne, Hext. reflexivity.
Qed.

Lemma calculateCIDRPrefix_loop_leading_ones :
  calculateCIDRPrefix_loop 32 subnetMaskNum 0 0 = leading_ones subnetMaskNum.
Proof.
  change 0 with (getPrefixMask 0) at 1.
  rewrite calculateCIDRPrefix_loop_spec; try reflexivity; try lia.
  change (getPrefixMask 0) with 0. apply Z.land_0_r.
Qed.

Lemma leading_ones_from_range n k :
  0 <= leading_ones_from n subnetMaskNum k <= Z.of_nat n.
Proof.
  revert k. induction n as [|n IH]; intros k; cbn [leading_ones_from]; [lia|].
  destruct (Z.testbit subnetMaskNum k); [specialize (IH (k - 1))|]; lia.
Qed.

End Prefix.

Section MaskComplement.

Lemma masks_disjoint n :
  0 <= n <= 32 -> Z.land (getPrefixMask n) (getMask (32 - n)) = 0.
Proof.
  intros Hn. apply Z.bits_inj'. intros k Hk.
  rewrite Z.land_spec, getPrefixMask_testbit, getMask_testbit by lia.
  rewrite Z.bits_0.
  destruct (Z.leb_spec (32 - n) k), (Z.ltb_spec k (32 - n));
    cbn [andb]; rewrite ?andb_false_r; reflexivity || lia.
Qed.

Lemma masks_exhaust n :
  0 <= n <= 32 -> Z.lor (getPrefixMask n) (getMask (32 - n)) = 4294967295.
Proof.
  intros Hn. change 4294967295 with (Z.ones 32).
  apply Z.bits_inj'. intros k Hk.
  rewrite Z.lor_spec, getPrefixMask_testbit, getMask_testbit,
    Z.testbit_ones by lia.
  destruct (Z.leb_spec (32 - n) k), (Z.ltb_spec k (32 - n)),
    (Z.leb_spec 0 k), (Z.ltb_spec k 32); cbn [andb orb]; reflexivity || lia.
Qed.

End MaskComplement.

Section EntryPoints.

(** [toDecimal] either returns or throws its one error. *)
Lemma toDecimal_cases v :
  (exists n, toDecimal v = Normal n) \/
  toDecimal v = Throw (NotAnIpAddress v).
Proof.
  destruct v as [s|n]; unfold toDecimal.
  - destruct (isIp (IPStr s)); cbn [negb]; [left; eauto | now right].
  - destruct (isDecimalIp (IPNum n)); [left; eauto | now right].
Qed.

Lemma leading_ones_from_spec m n : forall k,
  (forall j, k - leading_ones_from n m k < j <= k -> Z.testbit m j = true) /\
  (leading_ones_from n m k < Z.of_nat n ->
   Z.testbit m (k - leading_ones_from n m k) = false).
Proof.
  induction n as [|n IH]; intros k; cbn [leading_ones_from].
  - split; intros; lia.
  - destruct (Z.testbit m k) eqn:Hk.
    + destruct (IH (k - 1)) as [Hones Hzero]. split.
      * intros j Hj. destruct (Z.eq_dec j k) as [->|]; [exact Hk|].
        apply Hones. lia.
      * intros Hlt.
        replace (k - (1 + leading_ones_from n m (k - 1)))
          with (k - 1 - leading_ones_from n m (k - 1)) by lia.
        apply Hzero. lia.
    + split; [intros; lia|]. intros _. now rewrite Z.sub_0_r.
Qed.

Lemma calculate_returns ipStart ipEnd :
  exists r, calculate ipStart ipEnd = Normal r.
Proof.
  unfold calculate.
  destruct (toDecimal_cases ipStart) as [[s Hs] | Hs]; rewrite Hs;
    [|now exists None].
  destruct (toDecimal_cases ipEnd) as [[e He] | He]; rewrite He;
    [|now exists None].
  cbn [bind try_catch].
  destruct (Z.ltb_spec e s); [now exists None|].
  pose proof (toDecimal_range _ _ Hs). pose proof (toDecimal_range _ _ He).
  destruct (calculate_loop_tiles e (Z.to_nat (e - s + 1)) s [])
    as (l & Hrun & _); try lia.
  eauto.
Qed.

(** The budget is unfolded only as far as the loop runs: the whole
    address space is one block. *)
Example calculate_whole_space :
  exists l,
    calculate (IPStr "0.0.0.0") (IPStr "255.255.255.255") = Normal (Some l) /\
    summary l = [("0.0.0.0", 0)]%string.
Proof. eexists. split; [lazy; reflexivity | reflexivity]. Qed.

Lemma calculateCIDRPrefix_Normal ip subnetMask ipNum m :
  toDecimal ip = Normal ipNum -> toDecimal subnetMask = Normal m ->
  0 <= leading_ones m <= 32 /\
  exists r,
    getMaskRange ipNum (leading_ones m) = Normal r /\
    calculateCIDRPrefix ip subnetMask = Normal (Some r).
Proof.
  intros Hip Hm. pose proof (toDecimal_range _ _ Hm) as Hmr.
  assert (Hlo : 0 <= leading_ones m <= 32)
    by (apply (leading_ones_from_range m 32 31)).
  split; [exact Hlo|].
  destruct (getMaskRange_Normal ipNum _ Hlo) as (Hr & _). cbv zeta in Hr.
  eexists. split; [exact Hr|].
  unfold calculateCIDRPrefix. rewrite Hip, Hm. cbn [bind try_catch].
  rewrite calculateCIDRPrefix_loop_leading_ones by lia.
  now rewrite Hr.
Qed.

Lemma calculateCIDRPrefix_returns ip subnetMask :
  exists r, calculateCIDRPrefix ip subnetMask = Normal r.
Proof.
  destruct (toDecimal_cases ip) as [[a Ha] | Ha].
  - destruct (toDecimal_cases subnetMask) as [[m Hm] | Hm].
    + destruct (calculateCIDRPrefix_Normal _ _ _ _ Ha Hm) as (_ & r & _ & Hr).
      eauto.
    + unfold calculateCIDRPrefix. rewrite Ha, Hm. now exists None.
  - unfold calculateCIDRPrefix. rewrite Ha. now exists None.
Qed.

(** [calculateSubnetMask] in full: [null] for an address that does not
    convert, a descriptor for a prefix size from 0 to 32, and an error
    that escapes for any other prefix size. *)
Lemma calculateSubnetMask_cases ip p :
  (forall err, toDecimal ip = Throw err ->
               calculateSubnetMask ip p = Normal None) /\
  (forall ipNum, toDecimal ip = Normal ipNum -> 0 <= p <= 32 ->
                 exists r, getMaskRange ipNum p = Normal r /\
                           calculateSubnetMask ip p = Normal (Some r)) /\
  (forall ipNum, toDecimal ip = Normal ipNum -> 32 < p ->
                 calculateSubnetMask ip p =
                   Throw (NotANumericIpAddress (IPNum (getPrefixMask p)))) /\
  (forall ipNum, toDecimal ip = Normal ipNum -> p < 0 ->
                 calculateSubnetMask ip p =
                   Throw (NotANumericIpAddress (IPNum (getMask (32 - p))))).
Proof.
  unfold calculateSubnetMask. repeat split.
  - intros err ->. reflexivity.
  - intros ipNum -> Hp. destruct (getMaskRange_Normal ipNum p Hp) as (Hr & _).
    cbv zeta in Hr. eexists. split; [exact Hr|].
    cbn [try_catch]. now rewrite Hr.
  - intros ipNum -> Hp. cbn [try_catch].
    now rewrite (proj1 (getMaskRange_throws ipNum p) Hp).
  - intros ipNum -> Hp. cbn [try_catch].
    now rewrite (proj2 (getMaskRange_throws ipNum p) Hp).
Qed.

End EntryPoints.

(** * The claims *)

(** The example of the header comment, as the comment has it:
    [calculate("10.0.1.255", "10.0.3.255")] does not return the three
    blocks 10.0.1.255/32, 10.0.2.0/24 and 10.0.3.0/24. *)
Lemma C1_three_blocks_counterexample :
  ~ (exists l,
        calculate (IPStr "10.0.1.255") (IPStr "10.0.3.255") = Normal (Some l) /\
        summary l =
          [("10.0.1.255", 32); ("10.0.2.0", 24); ("10.0.3.0", 24)]%string).
Proof.
  intros (l & Hrun & Hsum). vm_compute in Hrun.
  injection Hrun as <-. discriminate Hsum.
Qed.

(** C1.  For every pair of valid addresses with start no later than
    end, [calculate] returns a list of blocks that lie end to end from
    start to end: the first block starts at start, every next block
    starts one past the end of the one before, the last block ends at
    end.  The list is in strictly ascending order of low address, every
    address of the interval lies in exactly one block and every other
    address in none, and each block is the widest one [getOptimalRange]
    finds at its low address.  On the range of the header comment,
    [calculate("10.0.1.255", "10.0.3.255")], the code returns the two
    blocks 10.0.1.255/32 and 10.0.2.0/23, where the header comment
    of the source says that the range should result in 10.0.1.255/32,
    10.0.2.0/24 and 10.0.3.0/24. *)
Theorem C1_calculate_covers_exactly :
  (forall ipStart ipEnd s e,
      toDecimal ipStart = Normal s -> toDecimal ipEnd = Normal e -> s <= e ->
      exists l,
        calculate ipStart ipEnd = Normal (Some l) /\
        tiles s l e /\
        (exists first, nth_error l 0 = Some first /\ ipLow first = s) /\
        (forall i b b',
            nth_error l i = Some b -> nth_error l (S i) = Some b' ->
            ipLow b' = ipHigh b + 1) /\
        (exists final,
            nth_error l (List.length l - 1) = Some final /\ ipHigh final = e) /\
        StronglySorted Z.lt (map ipLow l) /\
        (forall x, List.length (filter (covers x) l) =
                   if (s <=? x) && (x <=? e) then 1%nat else 0%nat) /\
        Forall (fun b => s <= ipLow b /\ ipLow b <= ipHigh b <= e) l /\
        Forall (fun b => getOptimalRange (ipLow b) e = Normal (Some b)) l) /\
  (exists l,
      calculate (IPStr "10.0.1.255") (IPStr "10.0.3.255") = Normal (Some l) /\
      summary l = [("10.0.1.255", 32); ("10.0.2.0", 23)]%string).
Proof.
  split.
  - intros ipStart ipEnd s e Hs He Hle.
    pose proof (toDecimal_range _ _ Hs) as Hsr.
    pose proof (toDecimal_range _ _ He) as Her.
    unfold calculate. rewrite Hs, He. cbn [bind try_catch].
    destruct (Z.ltb_spec e s); [lia|].
    destruct (calculate_loop_tiles e (Z.to_nat (e - s + 1)) s [])
      as (l & Hrun & Ht & Hopt); try lia.
    exists l. cbn [app] in Hrun.
    assert (Hne : l <> []) by (intros ->; cbn in Ht; lia).
    split; [exact Hrun|]. split; [exact Ht|]. split; [|split; [|split]].
    + destruct l as [|b l]; [congruence|]. exists b.
      split; [reflexivity | apply Ht].
    + intros i b b'. now apply tiles_consecutive with (cur := s) (last := e).
    + now apply tiles_last with (cur := s).
    + repeat split; try assumption.
      * now apply tiles_sorted with (cur := s) (last := e).
      * intros x. now apply tiles_cover_once.
      * now apply tiles_within.
  - eexists. split; [vm_compute; reflexivity|]. reflexivity.
Qed.

Lemma C1_calculate_covers_exactly_witness :
  exists l,
    calculate (IPStr "192.168.0.7") (IPNum 3232235600) = Normal (Some l) /\
    tiles 3232235527 l 3232235600.
Proof.
  destruct (proj1 C1_calculate_covers_exactly
              (IPStr "192.168.0.7") (IPNum 3232235600) 3232235527 3232235600
              eq_refl eq_refl ltac:(lia))
    as (l & Hrun & Ht & _).
  exists l. split; assumption.
Defined.

(** C2.  For every pair of integers, in particular of 32-bit ones,
    [getOptimalRange] returns.  When it returns a descriptor, that
    descriptor is [getMaskRange] at the smallest prefix size, among all
    sizes from 0 to 32, whose block starts exactly at [ipNum] and ends
    no later than [ipEndNum]; the sizes from 32 down to that one all
    pass the test of the loop and the next smaller one, if there is
    one, is the first to fail, so the downward search with its [break]
    misses nothing.  It returns [null] exactly when the /32 block fails
    the test. *)
Theorem C2_getOptimalRange_widest (ipNum ipEndNum : Z) :
  exists o,
    getOptimalRange ipNum ipEndNum = Normal o /\
    (o = None <-> fits ipNum ipEndNum 32 = false) /\
    (forall r, o = Some r ->
       exists p,
         0 <= p <= 32 /\ getMaskRange ipNum p = Normal r /\
         prefixSize r = p /\ ipLow r = ipNum /\ ipHigh r <= ipEndNum /\
         (forall j, p <= j <= 32 -> fits ipNum ipEndNum j = true) /\
         (p = 0 \/ fits ipNum ipEndNum (p - 1) = false) /\
         (forall q r',
             0 <= q <= 32 -> getMaskRange ipNum q = Normal r' ->
             ipLow r' = ipNum -> ipHigh r' <= ipEndNum -> p <= q)).
Proof.
  destruct (getOptimalRange_spec ipNum ipEndNum)
    as (o & Hrun & [[-> Hf] | (p & r & Hp & -> & Hmr & Hall & Hstop)]).
  - exists None. split; [exact Hrun|]. split; [tauto|]. discriminate.
  - exists (Some r). split; [exact Hrun|]. split.
    + split; [discriminate|]. intros Hf. rewrite (Hall 32) in Hf by lia.
      discriminate.
    + intros r0 [= <-]. exists p.
      destruct (getMaskRange_fields _ _ _ Hp Hmr)
        as (_ & _ & _ & _ & Hps & _).
      pose proof (Hall p ltac:(lia)) as Hfp. unfold fits in Hfp.
      rewrite Hmr in Hfp. apply andb_true_iff in Hfp as [Hl Hh].
      apply Z.eqb_eq in Hl. apply Z.leb_le in Hh.
      repeat split; try assumption; try lia.
      intros q r' Hq Hmq Hlq Hhq.
      destruct (Z.le_gt_cases p q) as [|Hlt]; [assumption|exfalso].
      assert (Hfq : fits ipNum ipEndNum q = true).
      { unfold fits. rewrite Hmq. apply andb_true_iff.
        now rewrite Z.eqb_eq, Z.leb_le. }
      destruct Hstop as [->|Hfail]; [lia|].
      rewrite (fits_mono ipNum ipEndNum q (p - 1)) in Hfail
        by (lia || assumption).
      discriminate.
Qed.

Lemma C2_getOptimalRange_widest_witness :
  exists o,
    getOptimalRange 167772672 167773183 = Normal o /\
    (o = None <-> fits 167772672 167773183 32 = false) /\
    (forall r, o = Some r ->
       exists p,
         0 <= p <= 32 /\ getMaskRange 167772672 p = Normal r /\
         prefixSize r = p /\ ipLow r = 167772672 /\ ipHigh r <= 167773183 /\
         (forall j, p <= j <= 32 -> fits 167772672 167773183 j = true) /\
         (p = 0 \/ fits 167772672 167773183 (p - 1) = false) /\
         (forall q r',
             0 <= q <= 32 -> getMaskRange 167772672 q = Normal r' ->
             ipLow r' = 167772672 -> ipHigh r' <= 167773183 -> p <= q)).
Proof. exact (C2_getOptimalRange_widest 167772672 167773183). Defined.

(** C3, as the claim has it: the string ["01.2.3.4"] is accepted by
    [isIp], yet converting it to a number and back gives ["1.2.3.4"],
    not the string itself. *)
Lemma C3_leading_zero_counterexample :
  isIp (IPStr "01.2.3.4") = true /\
  toDecimal (IPStr "01.2.3.4") = Normal 16909060 /\
  toString (IPNum 16909060) = Normal "1.2.3.4"%string /\
  ~ (exists n, toDecimal (IPStr "01.2.3.4") = Normal n /\
               toString (IPNum n) = Normal "01.2.3.4"%string).
Proof.
  repeat split.
  intros (n & Hn & Hs). vm_compute in Hn. injection Hn as <-.
  vm_compute in Hs. discriminate Hs.
Qed.

(** C3, amended.  For every integer address [n] in [0, 4294967295],
    [toDecimal n] is [n], [toString n] is an address string and
    [toDecimal (toString n) = n].  For every string [s] accepted by
    [isIp], [toString s] is [s], [toDecimal s] is an integer address,
    [toString (toDecimal s)] denotes the same address, and it is [s]
    itself exactly when [s] is in canonical form, that is when none of
    its four groups is written with a leading zero. *)
Theorem C3_codec_round_trip :
  (forall n,
      0 <= n <= 4294967295 ->
      toDecimal (IPNum n) = Normal n /\
      exists s,
        toString (IPNum n) = Normal s /\ isIp (IPStr s) = true /\
        toDecimal (IPStr s) = Normal n) /\
  (forall s,
      isIp (IPStr s) = true ->
      toString (IPStr s) = Normal s /\
      exists n s',
        toDecimal (IPStr s) = Normal n /\ 0 <= n <= 4294967295 /\
        toString (IPNum n) = Normal s' /\
        toDecimal (IPStr s') = Normal n /\
        (s' = s <-> canonical s = true)).
Proof.
  split.
  - intros n Hn. split; [now apply toDecimal_num|]. exists (dotted n).
    pose proof (toDecimal_dotted n Hn) as Hback.
    repeat split; [now apply toString_num | | exact Hback].
    unfold toDecimal in Hback.
    destruct (isIp (IPStr (dotted n))); [reflexivity | discriminate Hback].
  - intros s Hip. split; [unfold toString; now rewrite Hip|].
    destruct (isIp_str_inv s Hip) as (a & b & c & d & Hs & _).
    pose proof (toDecimal_str s a b c d Hip Hs) as Hn.
    pose proof (toDecimal_range _ _ Hn) as Hr.
    eexists _, (dotted _). split; [exact Hn|]. split; [exact Hr|].
    split; [now apply toString_num|]. split; [now apply toDecimal_dotted|].
    now apply dotted_toDecimal.
Qed.

Lemma C3_codec_round_trip_witness :
  (exists s, toString (IPNum 3232235777) = Normal s /\
             toDecimal (IPStr s) = Normal 3232235777) /\
  (exists n s', toDecimal (IPStr "192.168.1.1") = Normal n /\
                toString (IPNum n) = Normal s' /\
                (s' = "192.168.1.1"%string <-> canonical "192.168.1.1" = true)).
Proof.
  destruct C3_codec_round_trip as [Hnum Hstr]. split.
  - destruct (Hnum 3232235777 ltac:(lia)) as (_ & s & Hs & _ & Hback).
    exists s. split; assumption.
  - destruct (Hstr "192.168.1.1"%string eq_refl)
      as (_ & n & s' & Hn & _ & Hs & _ & Hiff).
    exists n, s'. repeat split; try assumption; apply Hiff.
Defined.

(** C4.  [calculateSubnetMask] lets an error escape: for the prefix
    size 33 (and likewise for -1) the mask that [getMaskRange] builds is
    no 32-bit number, and the [toString] of it throws outside the
    [try] of the entry point.  It does so for a valid address with any
    prefix size outside 0..32, and in no other case.  The other two
    entry points, [calculate] and [calculateCIDRPrefix], return for
    every input. *)
Theorem C4_calculateSubnetMask_error_escapes :
  calculateSubnetMask (IPStr "1.2.3.4") 33
    = Throw (NotANumericIpAddress (IPNum 6442450943)) /\
  calculateSubnetMask (IPStr "1.2.3.4") (-1)
    = Throw (NotANumericIpAddress (IPNum 4294967296)) /\
  (forall ip p,
      (exists err, calculateSubnetMask ip p = Throw err) <->
      (exists ipNum, toDecimal ip = Normal ipNum) /\ (p < 0 \/ 32 < p)) /\
  (forall ipStart ipEnd, exists r, calculate ipStart ipEnd = Normal r) /\
  (forall ip subnetMask,
      exists r, calculateCIDRPrefix ip subnetMask = Normal r).
Proof.
  split; [vm_compute; reflexivity|]. split; [vm_compute; reflexivity|].
  split; [|split].
  2: exact calculate_returns.
  2: exact calculateCIDRPrefix_returns.
  intros ip p.
  destruct (calculateSubnetMask_cases ip p) as (Hnull & Hok & Hhigh & Hlow).
  split.
  - intros (err & Herr).
    destruct (toDecimal_cases ip) as [[ipNum Hn] | Hthrow].
    + split; [now exists ipNum|].
      destruct (Z.lt_ge_cases p 0) as [|Hp0]; [now left|].
      destruct (Z.lt_ge_cases 32 p) as [|Hp32]; [now right|].
      destruct (Hok ipNum Hn ltac:(lia)) as (r & _ & Hr). congruence.
    + rewrite (Hnull _ Hthrow) in Herr. discriminate.
  - intros ((ipNum & Hn) & [Hp | Hp]); eexists; eauto.
Qed.

(** C5.  For every 32-bit address and every prefix size from 0 to 32,
    [getMaskRange] returns a descriptor in which
    [ipHigh = ipLow | invertedMask], [ipLow = ipLow & prefixMask],
    [prefixMask & invertedMask = 0],
    [prefixMask | invertedMask = 0xFFFFFFFF] and
    [invertedMaskSize = 32 - prefixSize].  The bitwise operators are
    read on the unsigned values; for [&], which the module uses, the
    same holds of the JavaScript operator followed by [>>> 0]. *)
Theorem C5_getMaskRange_invariants (ipNum prefixSize' : Z)
  (Hip : 0 <= ipNum <= 4294967295) (Hp : 0 <= prefixSize' <= 32) :
  exists r,
    getMaskRange ipNum prefixSize' = Normal r /\
    prefixSize r = prefixSize' /\
    ipHigh r = Z.lor (ipLow r) (invertedMask r) /\
    ipLow r = Z.land (ipLow r) (prefixMask r) /\
    Z.land (prefixMask r) (invertedMask r) = 0 /\
    Z.lor (prefixMask r) (invertedMask r) = 4294967295 /\
    invertedMaskSize r = 32 - prefixSize r /\
    ipLow r = JS.ushr (JS.band (ipLow r) (prefixMask r)) 0 /\
    JS.ushr (JS.band (prefixMask r) (invertedMask r)) 0 = 0.
Proof.
  destruct (getMaskRange_Normal ipNum prefixSize' Hp) as (Hr & Hlo & Hhi).
  cbv zeta in Hr, Hlo, Hhi. eexists. split; [exact Hr|].
  destruct (getMaskRange_fields _ _ _ Hp Hr)
    as (Hlow & Hhigh & HP & HM & Hps & Hms & _ & _).
  pose proof (getPrefixMask_range prefixSize' Hp) as HPr.
  pose proof (getMask_range (32 - prefixSize') ltac:(lia)) as HMr.
  assert (Har : 0 <= ipNum mod 2 ^ 32 < 2 ^ 32)
    by (apply Z.mod_pos_bound; lia).
  rewrite !ushr_band, Hhigh, HP, HM, Hps, Hms, Hlow.
  rewrite !(Z.mod_small (getPrefixMask prefixSize')),
    (Z.mod_small (getMask (32 - prefixSize'))),
    (Z.mod_small (Z.land _ _)) by lia.
  assert (Hdis : Z.land (Z.land (ipNum mod 2 ^ 32) (getPrefixMask prefixSize'))
                   (getMask (32 - prefixSize')) = 0).
  { now rewrite <- Z.land_assoc, masks_disjoint, Z.land_0_r. }
  repeat split.
  - now rewrite Z.add_nocarry_lxor, Z.lxor_lor.
  - now rewrite <- Z.land_assoc, Z.land_diag.
  - now apply masks_disjoint.
  - now apply masks_exhaust.
  - now rewrite <- Z.land_assoc, Z.land_diag.
  - now apply masks_disjoint.
Qed.

Lemma C5_getMaskRange_invariants_witness :
  exists r,
    getMaskRange 33752069 24 = Normal r /\
    prefixSize r = 24 /\
    ipHigh r = Z.lor (ipLow r) (invertedMask r) /\
    ipLow r = Z.land (ipLow r) (prefixMask r) /\
    Z.land (prefixMask r) (invertedMask r) = 0 /\
    Z.lor (prefixMask r) (invertedMask r) = 4294967295 /\
    invertedMaskSize r = 32 - prefixSize r /\
    ipLow r = JS.ushr (JS.band (ipLow r) (prefixMask r)) 0 /\
    JS.ushr (JS.band (prefixMask r) (invertedMask r)) 0 = 0.
Proof.
  apply (C5_getMaskRange_invariants 33752069 24); lia.
Defined.

(** C6.  For every 32-bit address and every prefix size from 0 to 32,
    [getMaskRange] does not fail; its [ipLow] is the address and-ed with
    the prefix mask, which clears the host bits of the address, and its
    [ipHigh] is [ipLow] plus the host mask of [32 - prefixSize] bits.
    [calculateSubnetMask("2.3.4.5", 24)] gives low [2.3.4.0], high
    [2.3.4.255] and prefix mask [255.255.255.0];
    [calculateSubnetMask("1.2.3.4", 32)] gives low and high [1.2.3.4]. *)
Theorem C6_getMaskRange_low_high :
  (forall address prefixSize',
      0 <= address <= 4294967295 -> 0 <= prefixSize' <= 32 ->
      exists r,
        getMaskRange address prefixSize' = Normal r /\
        ipLow r = JS.ushr (JS.band address (getPrefixMask prefixSize')) 0 /\
        ipLow r = Z.land address (getPrefixMask prefixSize') /\
        Z.land (ipLow r) (getMask (32 - prefixSize')) = 0 /\
        ipHigh r = ipLow r + getMask (32 - prefixSize') /\
        toString (IPNum (ipLow r)) = Normal (ipLowStr r) /\
        toString (IPNum (ipHigh r)) = Normal (ipHighStr r) /\
        toString (IPNum (prefixMask r)) = Normal (prefixMaskStr r)) /\
  (exists r,
      calculateSubnetMask (IPStr "2.3.4.5") 24 = Normal (Some r) /\
      ipLowStr r = "2.3.4.0"%string /\ ipHighStr r = "2.3.4.255"%string /\
      prefixMaskStr r = "255.255.255.0"%string) /\
  (exists r,
      calculateSubnetMask (IPStr "1.2.3.4") 32 = Normal (Some r) /\
      ipLowStr r = "1.2.3.4"%string /\ ipHighStr r = "1.2.3.4"%string /\
      ipLow r = ipHigh r).
Proof.
  split; [|split].
  - intros a p Ha Hp.
    destruct (getMaskRange_Normal a p Hp) as (Hr & Hlo & Hhi).
    cbv zeta in Hr, Hlo, Hhi. eexists. split; [exact Hr|].
    destruct (getMaskRange_fields _ _ _ Hp Hr)
      as (Hlow & Hhigh & HP & _).
    pose proof (getPrefixMask_range p Hp) as HPr.
    cbn [ipLow ipHigh ipLowStr ipHighStr prefixMask prefixMaskStr] in *.
    rewrite ushr_band, !(Z.mod_small a), (Z.mod_small (getPrefixMask p)) in *
      by lia.
    repeat split; try reflexivity.
    + now rewrite <- Z.land_assoc, masks_disjoint, Z.land_0_r.
    + apply toString_num. lia.
    + apply toString_num. lia.
    + apply toString_num. lia.
  - eexists. split; [vm_compute; reflexivity|]. repeat split.
  - eexists. split; [vm_compute; reflexivity|]. repeat split.
Qed.

Lemma C6_getMaskRange_low_high_witness :
  exists r,
    getMaskRange 33752069 24 = Normal r /\
    ipLow r = Z.land 33752069 (getPrefixMask 24) /\
    ipHigh r = ipLow r + getMask (32 - 24).
Proof.
  destruct (proj1 C6_getMaskRange_low_high 33752069 24 ltac:(lia) ltac:(lia))
    as (r & Hr & _ & Hlow & _ & Hhigh & _).
  exists r. repeat split; assumption.
Defined.

(** C7.  For every valid address and every valid subnet mask,
    [calculateCIDRPrefix] takes as prefix size the number of 1-bits of
    the mask before its first 0-bit, reading from the most significant
    bit, and returns [getMaskRange] of the address at that size; a mask
    that is not contiguous raises nothing, its bits after the first
    0-bit are ignored.  [calculateCIDRPrefix("123.123.123.1",
    "255.255.255.0")] gives prefix size 24, low [123.123.123.0] and
    high [123.123.123.255]. *)
Theorem C7_calculateCIDRPrefix_leading_ones :
  (forall ip subnetMask ipNum m,
      toDecimal ip = Normal ipNum -> toDecimal subnetMask = Normal m ->
      0 <= leading_ones m <= 32 /\
      (forall k, 32 - leading_ones m <= k < 32 -> Z.testbit m k = true) /\
      (leading_ones m < 32 -> Z.testbit m (31 - leading_ones m) = false) /\
      exists r,
        getMaskRange ipNum (leading_ones m) = Normal r /\
        calculateCIDRPrefix ip subnetMask = Normal (Some r) /\
        prefixSize r = leading_ones m) /\
  (exists r,
      calculateCIDRPrefix (IPStr "123.123.123.1") (IPStr "255.255.255.0")
        = Normal (Some r) /\
      prefixSize r = 24 /\ ipLowStr r = "123.123.123.0"%string /\
      ipHighStr r = "123.123.123.255"%string) /\
  (exists r,
      calculateCIDRPrefix (IPStr "123.123.123.1") (IPStr "255.0.255.0")
        = Normal (Some r) /\
      prefixSize r = 8).
Proof.
  split; [|split].
  - intros ip subnetMask ipNum m Hip Hm.
    destruct (calculateCIDRPrefix_Normal _ _ _ _ Hip Hm)
      as (Hlo & r & Hr & Hrun).
    destruct (leading_ones_from_spec m 32 31) as [Hones Hzero].
    fold (leading_ones m) in Hones, Hzero.
    repeat split; try lia.
    + intros k Hk. apply Hones. lia.
    + intros Hlt. apply Hzero. lia.
    + exists r. repeat split; try assumption.
      now destruct (getMaskRange_fields _ _ _ Hlo Hr)
        as (_ & _ & _ & _ & Hps & _).
  - eexists. split; [vm_compute; reflexivity|]. repeat split.
  - eexists. split; [vm_compute; reflexivity|]. repeat split.
Qed.

Lemma C7_calculateCIDRPrefix_leading_ones_witness :
  exists r,
    calculateCIDRPrefix (IPNum 2071690107) (IPStr "255.255.240.0")
      = Normal (Some r) /\
    prefixSize r = leading_ones 4294963200.
Proof.
  destruct (proj1 C7_calculateCIDRPrefix_leading_ones
              (IPNum 2071690107) (IPStr "255.255.240.0")
              2071690107 4294963200 eq_refl eq_refl)
    as (_ & _ & _ & r & _ & Hrun & Hps).
  exists r. split; assumption.
Defined.

(** C8.  [toDecimal] throws on every value that is neither an address
    string nor an integer address.  [calculate] returns [null], and
    raises nothing, whenever the conversion of either endpoint fails
    and whenever the converted end is smaller than the converted start;
    [calculate("1.2.3.4", "1.2.3.3")] returns [null];
    [toDecimal("256.1.1.1")] throws the error for an invalid address. *)
Theorem C8_calculate_null_on_failure :
  (forall v,
      isIp v = false -> isDecimalIp v = false ->
      toDecimal v = Throw (NotAnIpAddress v)) /\
  (forall ipStart ipEnd err,
      toDecimal ipStart = Throw err -> calculate ipStart ipEnd = Normal None) /\
  (forall ipStart ipEnd err,
      toDecimal ipEnd = Throw err -> calculate ipStart ipEnd = Normal None) /\
  (forall ipStart ipEnd s e,
      toDecimal ipStart = Normal s -> toDecimal ipEnd = Normal e -> e < s ->
      calculate ipStart ipEnd = Normal None) /\
  calculate (IPStr "1.2.3.4") (IPStr "1.2.3.3") = Normal None /\
  toDecimal (IPStr "256.1.1.1") = Throw (NotAnIpAddress (IPStr "256.1.1.1")).
Proof.
  repeat split.
  - exact toDecimal_throw.
  - intros a b err Ha. unfold calculate. now rewrite Ha.
  - intros a b err Hb. unfold calculate. rewrite Hb.
    destruct (toDecimal_cases a) as [[s Hs] | Hs]; rewrite Hs; reflexivity.
  - intros a b s e Ha Hb Hlt. unfold calculate. rewrite Ha, Hb.
    cbn [bind try_catch]. destruct (Z.ltb_spec e s); [reflexivity|lia].
Qed.

Lemma C8_calculate_null_on_failure_witness :
  calculate (IPStr "1.2.3") (IPNum 5) = Normal None /\
  calculate (IPNum 5) (IPNum (-1)) = Normal None /\
  calculate (IPNum 9) (IPStr "0.0.0.8") = Normal None.
Proof.
  destruct C8_calculate_null_on_failure as (_ & H1 & H2 & H3 & _).
  split; [|split].
  - exact (H1 (IPStr "1.2.3") (IPNum 5) _ eq_refl).
  - exact (H2 (IPNum 5) (IPNum (-1)) _ eq_refl).
  - exact (H3 (IPNum 9) (IPStr "0.0.0.8") 9 8 eq_refl eq_refl ltac:(lia)).
Defined.

(** C9.  For every [n] from 0 to 32, [getPrefixMask n] has exactly the
    [n] most significant of its 32 bits set (bit [k] is set when
    [32 - n <= k < 32]), [getMask n] has exactly the [n] least
    significant bits set, [getPrefixMask 0 = 0],
    [getPrefixMask 32 = 0xFFFFFFFF], and the prefix mask of [n] bits
    and the host mask of [32 - n] bits are complementary: their
    bitwise and is 0 and their bitwise or is [0xFFFFFFFF]. *)
Theorem C9_masks_complementary (n : Z) (Hn : 0 <= n <= 32) :
  (forall k, Z.testbit (getPrefixMask n) k = (32 - n <=? k) && (k <? 32)) /\
  (forall k, Z.testbit (getMask n) k = (0 <=? k) && (k <? n)) /\
  getPrefixMask 0 = 0 /\ getPrefixMask 32 = 4294967295 /\
  getMask 0 = 0 /\ getMask 32 = 4294967295 /\
  Z.land (getPrefixMask n) (getMask (32 - n)) = 0 /\
  Z.lor (getPrefixMask n) (getMask (32 - n)) = 4294967295.
Proof.
  repeat split; try reflexivity.
  - intros k. now apply getPrefixMask_testbit.
  - intros k. now apply getMask_testbit.
  - now apply masks_disjoint.
  - now apply masks_exhaust.
Qed.

Lemma C9_masks_complementary_witness :
  Z.land (getPrefixMask 24) (getMask (32 - 24)) = 0 /\
  Z.lor (getPrefixMask 24) (getMask (32 - 24)) = 4294967295.
Proof.
  pose proof (C9_masks_complementary 24 ltac:(lia)) as H.
  split; apply H.
Defined.

(** C10.  For integers with [0 <= ipNum <= ipEndNum <= 4294967295] the
    /32 candidate has [ipLow = ipHigh = ipNum], so [getOptimalRange]
    never returns [null]; hence the loop of [calculate], started from
    a valid address, never leaves through its null check, and
    [calculate] returns a list with at least one block for every pair
    of valid endpoints with start no later than end. *)
Theorem C10_getOptimalRange_not_null (ipNum ipEndNum : Z)
  (H : 0 <= ipNum <= ipEndNum) (Hend : ipEndNum <= 4294967295) :
  (exists r32, getMaskRange ipNum 32 = Normal r32 /\
               ipLow r32 = ipNum /\ ipHigh r32 = ipNum) /\
  (exists r, getOptimalRange ipNum ipEndNum = Normal (Some r)) /\
  (forall fuel rangeCollection,
      calculate_loop fuel ipNum ipEndNum rangeCollection <> Normal None) /\
  (forall ipStart ipEnd,
      toDecimal ipStart = Normal ipNum -> toDecimal ipEnd = Normal ipEndNum ->
      exists l, calculate ipStart ipEnd = Normal (Some l) /\ l <> []).
Proof.
  repeat split.
  - destruct (getMaskRange_Normal ipNum 32 ltac:(lia)) as (Hr & _).
    cbv zeta in Hr. eexists. split; [exact Hr|].
    cbn [ipLow ipHigh]. change (getPrefixMask 32) with (Z.ones 32).
    change (getMask (32 - 32)) with 0.
    rewrite Z.land_ones, Z.mod_mod, Z.mod_small by lia. lia.
  - destruct (getOptimalRange_Some ipNum ipEndNum ltac:(lia) ltac:(lia))
      as (r & Hr & _). now exists r.
  - intros fuel. revert ipNum H.
    induction fuel as [|fuel IH]; intros cur Hcur acc; cbn [calculate_loop];
      destruct (Z.leb_spec cur ipEndNum); try discriminate.
    destruct (getOptimalRange_Some cur ipEndNum ltac:(lia) ltac:(lia))
      as (r & Hr & Hlow & Hhigh).
    rewrite Hr. cbn [bind].
    destruct (Z.le_gt_cases (ipHigh r + 1) ipEndNum) as [Hle|Hgt].
    + apply IH. lia.
    + destruct fuel; cbn [calculate_loop];
        destruct (Z.leb_spec (ipHigh r + 1) ipEndNum); try lia; discriminate.
  - intros ipStart ipEnd Hs He. unfold calculate. rewrite Hs, He.
    cbn [bind try_catch]. destruct (Z.ltb_spec ipEndNum ipNum); [lia|].
    destruct (calculate_loop_tiles ipEndNum
                (Z.to_nat (ipEndNum - ipNum + 1)) ipNum [])
      as (l & Hrun & Ht & _); try lia.
    exists l. split; [exact Hrun|].
    intros ->. cbn in Ht. lia.
Qed.

Lemma C10_getOptimalRange_not_null_witness :
  exists l, calculate (IPStr "10.0.1.255") (IPNum 167773183) = Normal (Some l)
            /\ l <> [].
Proof.
  apply (C10_getOptimalRange_not_null 167772671 167773183
           ltac:(lia) ltac:(lia)); reflexivity.
Defined.

(** * Further properties of the module *)

(** ** Blocks *)

Section Blocks.

Lemma pow2_pos k : 0 <= k -> 0 < 2 ^ k.
Proof. intros Hk. apply Z.pow_pos_nonneg; lia. Qed.

Lemma pow2_split h k : 0 <= k <= h -> 2 ^ h = 2 ^ k * 2 ^ (h - k).
Proof. intros H. rewrite <- Z.pow_add_r by lia. f_equal. lia. Qed.

(** The descriptor in terms of division: the block of [a] starts at the
    multiple of the block size just below or at [a]. *)
Lemma getMaskRange_descriptor a p :
  0 <= a <= 4294967295 -> 0 <= p <= 32 ->
  getMaskRange a p = Normal (descriptor (2 ^ (32 - p) * (a / 2 ^ (32 - p))) p).
Proof.
  intros Ha Hp. destruct (getMaskRange_Normal a p Hp) as (E & _).
  cbv zeta in E. rewrite E, (Z.mod_small a) by lia.
  now rewrite land_prefix_mask by lia.
Qed.

Lemma getMaskRange_wraps ipNum p :
  getMaskRange ipNum p = getMaskRange (ipNum mod 2 ^ 32) p.
Proof.
  unfold getMaskRange. rewrite !ushr_band. now rewrite Z.mod_mod by lia.
Qed.

Lemma descriptor_inj low low' p : descriptor low p = descriptor low' p -> low = low'.
Proof. intros H. exact (f_equal ipLow H). Qed.

(** Two addresses have the same block exactly when they have the same
    quotient by the block size. *)
Lemma same_block_iff a b p :
  0 <= a <= 4294967295 -> 0 <= b <= 4294967295 -> 0 <= p <= 32 ->
  getMaskRange a p = getMaskRange b p <->
  a / 2 ^ (32 - p) = b / 2 ^ (32 - p).
Proof.
  intros Ha Hb Hp. rewrite !getMaskRange_descriptor by lia.
  pose proof (pow2_pos (32 - p) ltac:(lia)).
  split.
  - intros E.
    apply (f_equal (fun c => match c with Normal r => ipLow r | _ => 0 end))
      in E.
    cbv [descriptor ipLow] in E. nia.
  - now intros ->.
Qed.

End Blocks.

Section BlockFacts.

Variables a p : Z.
Hypothesis a_range : 0 <= a <= 4294967295.
Hypothesis p_range : 0 <= p <= 32.

Let h := 32 - p.
Let low := 2 ^ h * (a / 2 ^ h).

Lemma block_of_low : (2 ^ h * (a / 2 ^ h)) / 2 ^ h = a / 2 ^ h.
Proof.
  pose proof (pow2_pos h ltac:(subst h; lia)).
  rewrite Z.mul_comm. apply Z.div_mul. lia.
Qed.

Lemma block_of_member b :
  low <= b <= low + getMask h -> b / 2 ^ h = a / 2 ^ h.
Proof.
  subst low. rewrite getMask_closed by (subst h; lia). intros Hb.
  pose proof (pow2_pos h ltac:(subst h; lia)).
  symmetry. apply (Z.div_unique_pos b (2 ^ h) _ (b - 2 ^ h * (a / 2 ^ h))); lia.
Qed.

Lemma block_low_high_range :
  0 <= low <= a /\ a <= low + getMask h /\ low + getMask h <= 4294967295.
Proof.
  pose proof (block_bounds a p ltac:(lia) p_range) as HB. cbv zeta in HB.
  subst low. rewrite getMask_closed by (subst h; lia). subst h.
  change (2 ^ 32) with 4294967296 in HB. lia.
Qed.

End BlockFacts.

(** X1.  Normalising twice changes nothing: for a prefix size from 0 to
    32 and any integer address, the descriptor that [getMaskRange]
    returns is also what it returns for the descriptor's own low
    address and for its own high address. *)
Theorem X1_getMaskRange_idempotent (ipNum p : Z) (r : SubnetAnalysis)
  (Hp : 0 <= p <= 32) (Hr : getMaskRange ipNum p = Normal r) :
  getMaskRange (ipLow r) p = Normal r /\ getMaskRange (ipHigh r) p = Normal r.
Proof.
  rewrite getMaskRange_wraps in Hr.
  assert (Ha : 0 <= ipNum mod 2 ^ 32 <= 4294967295).
  { pose proof (Z.mod_pos_bound ipNum (2 ^ 32) ltac:(lia)).
    change (2 ^ 32) with 4294967296 in *. lia. }
  set (a := ipNum mod 2 ^ 32) in *.
  rewrite getMaskRange_descriptor in Hr by assumption.
  assert (E : r = descriptor (2 ^ (32 - p) * (a / 2 ^ (32 - p))) p)
    by congruence.
  pose proof (block_low_high_range a p Ha Hp) as HB.
  rewrite E. cbv [descriptor ipLow ipHigh]. split.
  - rewrite getMaskRange_descriptor by lia.
    now rewrite block_of_low by lia.
  - rewrite getMaskRange_descriptor by lia.
    now rewrite (block_of_member a p Hp) by lia.
Qed.

Lemma X1_getMaskRange_idempotent_witness :
  getMaskRange 33752064 24 = Normal (descriptor 33752064 24) /\
  getMaskRange 33752319 24 = Normal (descriptor 33752064 24).
Proof.
  exact (X1_getMaskRange_idempotent 33752069 24 (descriptor 33752064 24)
           ltac:(lia) eq_refl).
Defined.

(** X2.  For a 32-bit address and a prefix size from 0 to 32, the block
    that [getMaskRange] returns holds the address, has exactly
    [2 ^ (32 - prefixSize)] addresses, starts at a multiple of that
    size, and lies within the 32-bit range. *)
Theorem X2_block_holds_address (ipNum p : Z) (r : SubnetAnalysis)
  (Ha : 0 <= ipNum <= 4294967295) (Hp : 0 <= p <= 32)
  (Hr : getMaskRange ipNum p = Normal r) :
  ipLow r <= ipNum <= ipHigh r /\
  ipHigh r - ipLow r + 1 = 2 ^ (32 - p) /\
  ipLow r mod 2 ^ (32 - p) = 0 /\
  0 <= ipLow r /\ ipHigh r <= 4294967295.
Proof.
  rewrite getMaskRange_descriptor in Hr by assumption.
  assert (E : r = descriptor (2 ^ (32 - p) * (ipNum / 2 ^ (32 - p))) p)
    by congruence.
  pose proof (block_low_high_range ipNum p Ha Hp) as HB.
  pose proof (pow2_pos (32 - p) ltac:(lia)).
  rewrite E. cbv [descriptor ipLow ipHigh].
  repeat split; try lia.
  - rewrite getMask_closed by lia. lia.
  - rewrite Z.mul_comm. apply Z.mod_mul. lia.
Qed.

Lemma X2_block_holds_address_witness :
  ipLow (descriptor 33752064 24) <= 33752069
    <= ipHigh (descriptor 33752064 24) /\
  ipHigh (descriptor 33752064 24) - ipLow (descriptor 33752064 24) + 1
    = 2 ^ (32 - 24).
Proof.
  pose proof (X2_block_holds_address 33752069 24 (descriptor 33752064 24)
                ltac:(lia) ltac:(lia) eq_refl) as H.
  split; apply H.
Defined.

(** X3.  Block membership: with [r] the block of a 32-bit address at
    some prefix size, another 32-bit address gets the same descriptor
    at that prefix size exactly when it lies between [ipLow r] and
    [ipHigh r]. *)
Theorem X3_same_block_iff_member (ipNum b p : Z) (r : SubnetAnalysis)
  (Ha : 0 <= ipNum <= 4294967295) (Hb : 0 <= b <= 4294967295)
  (Hp : 0 <= p <= 32) (Hr : getMaskRange ipNum p = Normal r) :
  getMaskRange b p = Normal r <-> ipLow r <= b <= ipHigh r.
Proof.
  rewrite <- Hr, (same_block_iff b ipNum p) by assumption.
  rewrite getMaskRange_descriptor in Hr by assumption.
  assert (E : r = descriptor (2 ^ (32 - p) * (ipNum / 2 ^ (32 - p))) p)
    by congruence.
  rewrite E. cbv [descriptor ipLow ipHigh].
  pose proof (pow2_pos (32 - p) ltac:(lia)) as Hpos.
  split.
  - intros <-. pose proof (block_low_high_range b p Hb Hp). lia.
  - intros Hin. now apply block_of_member.
Qed.

Lemma X3_same_block_iff_member_witness :
  getMaskRange 33752300 24 = Normal (descriptor 33752064 24) <->
  ipLow (descriptor 33752064 24) <= 33752300
    <= ipHigh (descriptor 33752064 24).
Proof.
  exact (X3_same_block_iff_member 33752069 33752300 24
           (descriptor 33752064 24)
           ltac:(lia) ltac:(lia) ltac:(lia) eq_refl).
Defined.

(** X4.  Blocks nest: for one 32-bit address, the block at a longer
    prefix lies within the block at a shorter prefix. *)
Theorem X4_blocks_nest (ipNum p q : Z) (rp rq : SubnetAnalysis)
  (Ha : 0 <= ipNum <= 4294967295) (Hpq : 0 <= p <= q) (Hq : q <= 32)
  (Hrp : getMaskRange ipNum p = Normal rp)
  (Hrq : getMaskRange ipNum q = Normal rq) :
  ipLow rp <= ipLow rq /\ ipHigh rq <= ipHigh rp.
Proof.
  rewrite getMaskRange_descriptor in Hrp, Hrq by lia.
  assert (Ep : rp = descriptor (2 ^ (32 - p) * (ipNum / 2 ^ (32 - p))) p)
    by congruence.
  assert (Eq : rq = descriptor (2 ^ (32 - q) * (ipNum / 2 ^ (32 - q))) q)
    by congruence.
  rewrite Ep, Eq. cbv [descriptor ipLow ipHigh].
  rewrite !getMask_closed by lia.
  pose proof (pow2_pos (32 - q) ltac:(lia)) as Hposq.
  pose proof (pow2_pos (q - p) ltac:(lia)) as Hposd.
  pose proof (pow2_split (32 - p) (32 - q) ltac:(lia)) as Hs.
  replace (32 - p - (32 - q)) with (q - p) in Hs by lia.
  pose proof (block_low_high_range ipNum p Ha ltac:(lia)) as HBp.
  rewrite getMask_closed in HBp by lia.
  set (P := 2 ^ (32 - p)) in *. set (Q := 2 ^ (32 - q)) in *.
  set (D := 2 ^ (q - p)) in *.
  set (kp := ipNum / P) in *. set (kq := ipNum / Q).
  assert (Hkq : Q * kq <= ipNum < Q * kq + Q).
  { pose proof (Z.div_mod ipNum Q ltac:(lia)).
    pose proof (Z.mod_pos_bound ipNum Q Hposq). subst kq. lia. }
  split.
  - assert (D * kp <= kq); [|nia].
    apply Z.div_le_lower_bound; [lia|]. subst kq. nia.
  - assert (kq + 1 <= D * (kp + 1)); [|nia].
    assert (kq < D * (kp + 1)); [|lia].
    apply Z.div_lt_upper_bound; [lia|]. nia.
Qed.

Lemma X4_blocks_nest_witness :
  ipLow (descriptor 33751040 21) <= ipLow (descriptor 33752064 24) /\
  ipHigh (descriptor 33752064 24) <= ipHigh (descriptor 33751040 21).
Proof.
  exact (X4_blocks_nest 33752069 21 24
           (descriptor 33751040 21) (descriptor 33752064 24)
           ltac:(lia) ltac:(lia) ltac:(lia) eq_refl eq_refl).
Defined.

(** X5.  With both counts of bits, [prefixSize] and
    [32 - prefixSize], at most [2 ^ 26]: [getMaskRange] returns a
    descriptor exactly when the prefix size is from 0 to 32, whatever
    integer the address is; above 32 it throws on the prefix mask,
    below 0 on the host mask.  An address outside the 32-bit range is
    not rejected: it is taken modulo [2 ^ 32]. *)
Theorem X5_getMaskRange_domain (ipNum p : Z)
  (Hhi : p <= 67108864) (Hlo : 32 - p <= 67108864) :
  ((exists r, getMaskRange ipNum p = Normal r) <-> 0 <= p <= 32) /\
  (32 < p ->
   getMaskRange ipNum p =
     Throw (NotANumericIpAddress (IPNum (getPrefixMask p)))) /\
  (p < 0 ->
   getMaskRange ipNum p =
     Throw (NotANumericIpAddress (IPNum (getMask (32 - p))))) /\
  getMaskRange ipNum p = getMaskRange (ipNum mod 2 ^ 32) p.
Proof.
  destruct (getMaskRange_throws ipNum p) as [Hhigh Hlow].
  split; [|split; [exact Hhigh | split; [exact Hlow|]]].
  - split.
    + intros (r & Hr).
      destruct (Z.lt_ge_cases p 0) as [Hneg|Hp0].
      { rewrite (Hlow Hneg) in Hr. discriminate Hr. }
      destruct (Z.lt_ge_cases 32 p) as [Hbig|Hp32].
      { rewrite (Hhigh Hbig) in Hr. discriminate Hr. }
      lia.
    + intros Hp. destruct (getMaskRange_Normal ipNum p Hp) as (Hr & _).
      cbv zeta in Hr. eauto.
  - apply getMaskRange_wraps.
Qed.

Lemma X5_getMaskRange_domain_witness :
  getMaskRange 5 40 = Throw (NotANumericIpAddress (IPNum (getPrefixMask 40)))
  /\ getMaskRange 5 (-3) =
       Throw (NotANumericIpAddress (IPNum (getMask (32 - -3))))
  /\ getMaskRange (-1) 24 = getMaskRange 4294967295 24.
Proof.
  split; [|split].
  - exact (proj1 (proj2 (X5_getMaskRange_domain 5 40 ltac:(lia) ltac:(lia)))
             ltac:(lia)).
  - exact (proj1 (proj2 (proj2 (X5_getMaskRange_domain 5 (-3)
                                  ltac:(lia) ltac:(lia))))
             ltac:(lia)).
  - exact (proj2 (proj2 (proj2 (X5_getMaskRange_domain (-1) 24
                                  ltac:(lia) ltac:(lia))))).
Defined.

(** ** The mask builders outside 0..32 *)

Section MaskPeriod.

Lemma getPrefixMask_loop_shift n : forall i mask,
  getPrefixMask_loop n (i + 32) mask = getPrefixMask_loop n i mask.
Proof.
  induction n as [|n IH]; intros i mask; cbn [getPrefixMask_loop];
    [reflexivity|].
  replace (i + 32 + 1) with (i + 1 + 32) by lia. rewrite IH.
  rewrite !ushr_shl_1. do 2 f_equal. f_equal.
  replace (32 - (i + 1 + 32)) with (32 - (i + 1) + (-1) * 32) by lia.
  apply Z.mod_add. lia.
Qed.

Lemma getPrefixMask_loop_mask n : forall i mask c,
  getPrefixMask_loop n i (mask + c) = getPrefixMask_loop n i mask + c.
Proof.
  induction n as [|n IH]; intros i mask c; cbn [getPrefixMask_loop];
    [reflexivity|].
  rewrite <- IH. f_equal. lia.
Qed.

Lemma getMask_loop_shift n : forall i mask,
  getMask_loop n (i + 32) mask = getMask_loop n i mask.
Proof.
  induction n as [|n IH]; intros i mask; cbn [getMask_loop]; [reflexivity|].
  replace (i + 32 + 1) with (i + 1 + 32) by lia. rewrite IH.
  rewrite !ushr_shl_1. do 2 f_equal. f_equal.
  replace (i + 32) with (i + 1 * 32) by lia. apply Z.mod_add. lia.
Qed.

Lemma getMask_loop_mask n : forall i mask c,
  getMask_loop n i (mask + c) = getMask_loop n i mask + c.
Proof.
  induction n as [|n IH]; intros i mask c; cbn [getMask_loop]; [reflexivity|].
  rewrite <- IH. f_equal. lia.
Qed.

Lemma getPrefixMask_period p :
  0 <= p -> getPrefixMask (p + 32) = getPrefixMask p + 4294967295.
Proof.
  intros Hp. unfold getPrefixMask.
  replace (Z.to_nat (p + 32)) with (32 + Z.to_nat p)%nat by lia.
  rewrite getPrefixMask_loop_app.
  change (getPrefixMask_loop 32 0 0) with (0 + 4294967295).
  change (0 + Z.of_nat 32) with (0 + 32).
  now rewrite getPrefixMask_loop_shift, getPrefixMask_loop_mask.
Qed.

Lemma getMask_period m :
  0 <= m -> getMask (m + 32) = getMask m + 4294967295.
Proof.
  intros Hm. unfold getMask.
  replace (Z.to_nat (m + 32)) with (32 + Z.to_nat m)%nat by lia.
  rewrite getMask_loop_app.
  change (getMask_loop 32 0 0) with (0 + 4294967295).
  change (0 + Z.of_nat 32) with (0 + 32).
  now rewrite getMask_loop_shift, getMask_loop_mask.
Qed.

(** Every full 32 iterations add [0xFFFFFFFF]. *)
Lemma getPrefixMask_blocks n :
  0 <= n ->
  getPrefixMask n = n / 32 * 4294967295 + getPrefixMask (n mod 32).
Proof.
  intros Hn.
  assert (H : forall k, 0 <= k -> forall r, 0 <= r ->
            getPrefixMask (32 * k + r) = k * 4294967295 + getPrefixMask r).
  { apply (natlike_ind (fun k => forall r, 0 <= r ->
             getPrefixMask (32 * k + r) = k * 4294967295 + getPrefixMask r)).
    - intros r Hr. replace (32 * 0 + r) with r by lia. lia.
    - intros k Hk IH r Hr.
      replace (32 * Z.succ k + r) with (32 * k + r + 32) by lia.
      rewrite getPrefixMask_period by lia. rewrite IH by assumption. lia. }
  pose proof (Z.mod_pos_bound n 32 ltac:(lia)) as Hr.
  rewrite (Z.div_mod n 32) at 1 by lia.
  apply H; [apply Z.div_pos|]; lia.
Qed.

Lemma getMask_blocks n :
  0 <= n -> getMask n = n / 32 * 4294967295 + getMask (n mod 32).
Proof.
  intros Hn.
  assert (H : forall k, 0 <= k -> forall r, 0 <= r ->
            getMask (32 * k + r) = k * 4294967295 + getMask r).
  { apply (natlike_ind (fun k => forall r, 0 <= r ->
             getMask (32 * k + r) = k * 4294967295 + getMask r)).
    - intros r Hr. replace (32 * 0 + r) with r by lia. lia.
    - intros k Hk IH r Hr.
      replace (32 * Z.succ k + r) with (32 * k + r + 32) by lia.
      rewrite getMask_period by lia. rewrite IH by assumption. lia. }
  pose proof (Z.mod_pos_bound n 32 ltac:(lia)) as Hr.
  rewrite (Z.div_mod n 32) at 1 by lia.
  apply H; [apply Z.div_pos|]; lia.
Qed.

(** Up to [2 ^ 26] iterations no sum of the two loops reaches [2 ^ 53]:
    the sum after [m] iterations is the mask of [m] bits. *)
Lemma masks_below_2_53 n :
  n <= 67108864 ->
  0 <= getPrefixMask n <= 9007199252643840 /\
  0 <= getMask n <= 9007199252643840.
Proof.
  intros Hn. destruct (Z.le_gt_cases n 0) as [Hneg | Hpos].
  - rewrite getPrefixMask_nonpos by assumption.
    unfold getMask. replace (Z.to_nat n) with 0%nat by lia.
    cbn [getMask_loop]. lia.
  - rewrite getPrefixMask_blocks, getMask_blocks by lia.
    pose proof (Z.mod_pos_bound n 32 ltac:(lia)) as Hr.
    pose proof (Z.div_mod n 32 ltac:(lia)) as Hdm.
    assert (Hk : 0 <= n / 32) by (apply Z.div_pos; lia).
    rewrite getPrefixMask_closed, getMask_closed by lia.
    pose proof (pow2_pos (32 - n mod 32) ltac:(lia)) as H1.
    pose proof (pow2_pos (n mod 32) ltac:(lia)) as H2.
    assert (H3 : 2 ^ (n mod 32) <= 2 ^ 32)
      by (apply Z.pow_le_mono_r; lia).
    assert (H4 : 2 ^ (32 - n mod 32) <= 2 ^ 32)
      by (apply Z.pow_le_mono_r; lia).
    change (2 ^ 32) with 4294967296 in *.
    destruct (Z.eq_dec (n / 32) 2097152) as [E | NE].
    + assert (E0 : n mod 32 = 0) by lia. rewrite E, E0.
      change (2 ^ (32 - 0)) with 4294967296. change (2 ^ 0) with 1. lia.
    + assert (n / 32 <= 2097151) by lia. nia.
Qed.

End MaskPeriod.

(** X6.  The mask builders on counts of bits outside 0..32, up to
    [2 ^ 26] bits, where no sum of the loops reaches [2 ^ 53] and the
    additions of the source are exact.  Both masks are 0 for a count
    that is zero or negative; [2 ^ 32 - 2 ^ (32 - n)] and [2 ^ n - 1]
    for [n] from 0 to 32; and, the shift count being taken modulo 32,
    every full 32 bits add [0xFFFFFFFF], so that above 32 both masks
    leave the 32-bit range. *)
Theorem X6_masks_beyond_32_bits (n : Z) (Hn : n <= 67108864) :
  (n <= 0 -> getPrefixMask n = 0 /\ getMask n = 0) /\
  (0 <= n <= 32 ->
   getPrefixMask n = 2 ^ 32 - 2 ^ (32 - n) /\ getMask n = 2 ^ n - 1) /\
  (0 <= n ->
   getPrefixMask n = n / 32 * 4294967295 + getPrefixMask (n mod 32) /\
   getMask n = n / 32 * 4294967295 + getMask (n mod 32)) /\
  (32 < n -> 4294967295 < getPrefixMask n /\ 4294967295 < getMask n) /\
  getPrefixMask n < 2 ^ 53 /\ getMask n < 2 ^ 53.
Proof.
  split; [|split; [|split; [|split]]].
  - intros H. split; [now apply getPrefixMask_nonpos|].
    unfold getMask. now replace (Z.to_nat n) with 0%nat by lia.
  - intros H. split; [now apply getPrefixMask_closed|now apply getMask_closed].
  - intros H. split; [now apply getPrefixMask_blocks|now apply getMask_blocks].
  - intros H. split; [now apply getPrefixMask_above|now apply getMask_above].
  - destruct (masks_below_2_53 n Hn) as [H1 H2].
    change (2 ^ 53) with 9007199254740992. lia.
Qed.

Lemma X6_masks_beyond_32_bits_witness :
  getPrefixMask 40 = 40 / 32 * 4294967295 + getPrefixMask (40 mod 32) /\
  getMask (-5) = 0 /\ getMask 8 = 2 ^ 8 - 1 /\ 4294967295 < getMask 40 /\
  getPrefixMask 67108864 < 2 ^ 53.
Proof.
  pose proof (X6_masks_beyond_32_bits 40 ltac:(lia)) as H1.
  pose proof (X6_masks_beyond_32_bits (-5) ltac:(lia)) as H2.
  pose proof (X6_masks_beyond_32_bits 8 ltac:(lia)) as H3.
  pose proof (X6_masks_beyond_32_bits 67108864 ltac:(lia)) as H4.
  destruct H1 as (_ & _ & H1 & H1' & _). destruct H2 as (H2 & _).
  destruct H3 as (_ & H3 & _). destruct H4 as (_ & _ & _ & _ & H4 & _).
  split; [|split; [|split; [|split]]].
  - exact (proj1 (H1 ltac:(lia))).
  - exact (proj2 (H2 ltac:(lia))).
  - exact (proj2 (H3 ltac:(lia))).
  - exact (proj2 (H1' ltac:(lia))).
  - exact H4.
Defined.

(** ** The two converters *)

Section Converters.

Lemma digit_value_range c : is_digit c = true -> 0 <= digit_value c <= 9.
Proof.
  unfold is_digit, digit_value. intros H.
  apply andb_true_iff in H as [H1 H2].
  apply Z.leb_le in H1. apply Z.leb_le in H2. lia.
Qed.

Lemma decimal_value_from_nonneg g : forall acc,
  all_digits g = true -> 0 <= acc -> 0 <= decimal_value_from acc g.
Proof.
  induction g as [|c g IH]; intros acc Hg Hacc; cbn [decimal_value_from];
    [exact Hacc|].
  cbn [all_digits] in Hg. apply andb_true_iff in Hg as [Hc Hg].
  apply IH; [exact Hg|]. pose proof (digit_value_range c Hc). lia.
Qed.

Lemma digit_group_nonneg g : digit_group g = true -> 0 <= decimal_value g.
Proof.
  intros Hg. apply decimal_value_from_nonneg; [|lia].
  now apply digit_group_all_digits.
Qed.

Lemma split_four a b c d :
  all_digits a = true -> all_digits b = true -> all_digits c = true ->
  all_digits d = true ->
  split "." (join_dots [a; b; c; d]) = [a; b; c; d].
Proof.
  intros Ha Hb Hc Hd. cbn [join_dots].
  now rewrite !split_group, split_digits.
Qed.

Lemma toString_Normal_inv v s :
  toString v = Normal s ->
  (v = IPStr s /\ isIp v = true) \/
  (exists n, v = IPNum n /\ 0 <= n <= 4294967295 /\ s = dotted n).
Proof.
  destruct v as [t|n]; unfold toString.
  - destruct (isIp (IPStr t)) eqn:Hip; [|discriminate].
    intros [= <-]. now left.
  - destruct (isDecimalIp (IPNum n)) eqn:Hd; cbn [negb]; [|discriminate].
    intros [= <-]. right. exists n. split; [reflexivity|]. split; [|reflexivity].
    exact (toDecimal_range (IPNum n) n ltac:(unfold toDecimal; now rewrite Hd)).
Qed.

Lemma isIp_dotted n : 0 <= n <= 4294967295 -> isIp (IPStr (dotted n)) = true.
Proof.
  intros Hn. pose proof (toDecimal_dotted n Hn) as H. unfold toDecimal in H.
  destruct (isIp (IPStr (dotted n))); [reflexivity | discriminate H].
Qed.

Lemma isDecimalIp_iff n :
  isDecimalIp (IPNum n) = true <-> 0 <= n <= 4294967295.
Proof.
  unfold isDecimalIp, JS.rem. rewrite Z.rem_1_r. cbn [Z.eqb andb].
  rewrite andb_true_iff, !Z.leb_le. tauto.
Qed.

End Converters.

(** Settle [(exists x, c = Normal x) <-> b = true \/ b' = true] once the
    tests in [c] are decided. *)
Ltac domain_case :=
  split;
  [ intros [? H]; first [discriminate H | now left | now right]
  | intros [H | H]; first [discriminate H | eexists; reflexivity] ].

(** X7.  [toDecimal] and [toString] accept exactly the same values:
    those that [isIp] or [isDecimalIp] accepts.  On them [toDecimal]
    returns an integer that [isDecimalIp] accepts and [toString] a
    string that [isIp] accepts; on every other value each throws its
    own error. *)
Theorem X7_converters_domain (v : IPAny) :
  ((exists n, toDecimal v = Normal n) <->
   isIp v = true \/ isDecimalIp v = true) /\
  ((exists s, toString v = Normal s) <->
   isIp v = true \/ isDecimalIp v = true) /\
  (forall n, toDecimal v = Normal n -> isDecimalIp (IPNum n) = true) /\
  (forall s, toString v = Normal s -> isIp (IPStr s) = true) /\
  (isIp v = false -> isDecimalIp v = false ->
   toDecimal v = Throw (NotAnIpAddress v) /\
   toString v = Throw (NotANumericIpAddress v)).
Proof.
  split; [|split; [|split; [|split]]].
  - destruct v as [s|n]; unfold toDecimal;
      [destruct (isIp (IPStr s)) | destruct (isDecimalIp (IPNum n))];
      cbn [negb isIp isDecimalIp]; domain_case.
  - destruct v as [s|n]; unfold toString;
      [destruct (isIp (IPStr s)) | destruct (isDecimalIp (IPNum n))];
      cbn [negb isIp isDecimalIp]; domain_case.
  - intros n Hn. apply isDecimalIp_iff. exact (toDecimal_range v n Hn).
  - intros s Hs.
    destruct (toString_Normal_inv v s Hs) as [[-> Hip] | (n & -> & Hn & ->)];
      [exact Hip | now apply isIp_dotted].
  - intros Hs Hn. split; [now apply toDecimal_throw|].
    destruct v; unfold toString; now rewrite ?Hs, ?Hn.
Qed.

Lemma X7_converters_domain_witness :
  isDecimalIp (IPNum 16909060) = true /\
  isIp (IPStr "1.2.3.4") = true /\
  toString (IPNum (-1)) = Throw (NotANumericIpAddress (IPNum (-1))).
Proof.
  destruct (X7_converters_domain (IPStr "1.2.3.4")) as (_ & _ & Hd & _).
  destruct (X7_converters_domain (IPNum 16909060)) as (_ & _ & _ & Hs & _).
  destruct (X7_converters_domain (IPNum (-1))) as (_ & _ & _ & _ & Ht).
  split; [|split].
  - exact (Hd 16909060 eq_refl).
  - exact (Hs "1.2.3.4"%string eq_refl).
  - exact (proj2 (Ht eq_refl eq_refl)).
Defined.

(** X8.  Neither direction confuses two addresses: two integer
    addresses with the same dotted string are equal, and two address
    strings in canonical form with the same integer value are equal. *)
Theorem X8_converters_injective :
  (forall n m s,
      toString (IPNum n) = Normal s -> toString (IPNum m) = Normal s ->
      n = m) /\
  (forall s s' n,
      canonical s = true -> canonical s' = true ->
      toDecimal (IPStr s) = Normal n -> toDecimal (IPStr s') = Normal n ->
      s = s').
Proof.
  split.
  - intros n m s Hn Hm.
    destruct (toString_Normal_inv _ _ Hn) as [[[=] _] | (n' & [= <-] & Hnr & ->)].
    destruct (toString_Normal_inv _ _ Hm) as [[[=] _] | (m' & [= <-] & Hmr & E)].
    pose proof (toDecimal_dotted n Hnr) as Dn.
    pose proof (toDecimal_dotted m Hmr) as Dm.
    rewrite E in Dn. congruence.
  - intros s s' n Hc Hc' Hs Hs'.
    assert (Hip : isIp (IPStr s) = true).
    { unfold toDecimal in Hs. destruct (isIp (IPStr s)); [reflexivity|].
      discriminate Hs. }
    assert (Hip' : isIp (IPStr s') = true).
    { unfold toDecimal in Hs'. destruct (isIp (IPStr s')); [reflexivity|].
      discriminate Hs'. }
    apply (dotted_toDecimal s n Hip Hs) in Hc.
    apply (dotted_toDecimal s' n Hip' Hs') in Hc'. congruence.
Qed.

Lemma X8_converters_injective_witness :
  167772161 = 167772161 /\ "10.0.0.1"%string = "10.0.0.1"%string.
Proof.
  split.
  - exact (proj1 X8_converters_injective 167772161 167772161
             "10.0.0.1"%string eq_refl eq_refl).
  - exact (proj2 X8_converters_injective "10.0.0.1"%string "10.0.0.1"%string
             167772161 eq_refl eq_refl eq_refl eq_refl).
Defined.

(** X9.  What [isIp] accepts: exactly the strings made of four groups
    joined by dots, each group one to three decimal digits with a value
    of at most 255. *)
Theorem X9_isIp_four_groups (s : string) :
  isIp (IPStr s) = true <->
  exists a b c d,
    s = join_dots [a; b; c; d] /\
    Forall (fun g => digit_group g = true /\ decimal_value g <= 255)
      [a; b; c; d].
Proof.
  split.
  - intros Hip. destruct (isIp_str_inv s Hip) as (a & b & c & d & Hs & Hall).
    exists a, b, c, d. split.
    + rewrite <- Hs. symmetry. apply split_join.
    + eapply Forall_impl; [|exact Hall]. cbn. intros g [Hg Hv].
      split; [exact Hg | lia].
  - intros (a & b & c & d & -> & Hall).
    apply (isIp_str_intro _ a b c d).
    + groups. apply split_four; now apply digit_group_all_digits.
    + eapply Forall_impl; [|exact Hall]. cbn. intros g [Hg Hv].
      split; [exact Hg|]. split; [now apply digit_group_nonneg | exact Hv].
Qed.

Lemma X9_isIp_four_groups_witness :
  exists a b c d,
    "192.168.001.7"%string = join_dots [a; b; c; d] /\
    Forall (fun g => digit_group g = true /\ decimal_value g <= 255)
      [a; b; c; d].
Proof. exact (proj1 (X9_isIp_four_groups "192.168.001.7") eq_refl). Defined.

(** X10.  The first group is the most significant octet: for four
    octets [a], [b], [c], [d] from 0 to 255, the string of their
    decimal forms joined by dots converts to
    [a * 2^24 + b * 2^16 + c * 2^8 + d], and that integer converts back
    to the same string. *)
Theorem X10_octet_order (a b c d : Z)
  (Ha : 0 <= a <= 255) (Hb : 0 <= b <= 255)
  (Hc : 0 <= c <= 255) (Hd : 0 <= d <= 255) :
  let s := join_dots (map number_to_string [a; b; c; d]) in
  let n := a * 16777216 + b * 65536 + c * 256 + d in
  toDecimal (IPStr s) = Normal n /\ toString (IPNum n) = Normal s.
Proof.
  intros s n.
  assert (En : n = ((a * 256 + b) * 256 + c) * 256 + d) by (subst n; lia).
  assert (Hn : 0 <= n <= 4294967295) by lia.
  assert (Es : dotted n = s).
  { rewrite dotted_octets by lia.
    destruct (octets_of_fold a b c d Ha Hb Hc Hd) as (E1 & E2 & E3 & E4).
    rewrite <- En in E1, E2, E3, E4. now rewrite E1, E2, E3, E4. }
  rewrite <- Es. split; [now apply toDecimal_dotted | now apply toString_num].
Qed.

Lemma X10_octet_order_witness :
  toDecimal (IPStr (join_dots (map number_to_string [10; 0; 1; 255])))
    = Normal (10 * 16777216 + 0 * 65536 + 1 * 256 + 255) /\
  toString (IPNum (10 * 16777216 + 0 * 65536 + 1 * 256 + 255))
    = Normal (join_dots (map number_to_string [10; 0; 1; 255])).
Proof.
  exact (X10_octet_order 10 0 1 255
           ltac:(lia) ltac:(lia) ltac:(lia) ltac:(lia)).
Defined.

(** X11.  The strings of a descriptor say what its numbers say: for a
    prefix size from 0 to 32, the four string fields of the descriptor
    are address strings in canonical form, and [toDecimal] of each is
    the integer field beside it. *)
Theorem X11_descriptor_strings (ipNum p : Z) (r : SubnetAnalysis)
  (Hp : 0 <= p <= 32) (Hr : getMaskRange ipNum p = Normal r) :
  toDecimal (IPStr (ipLowStr r)) = Normal (ipLow r) /\
  toDecimal (IPStr (ipHighStr r)) = Normal (ipHigh r) /\
  toDecimal (IPStr (prefixMaskStr r)) = Normal (prefixMask r) /\
  toDecimal (IPStr (invertedMaskStr r)) = Normal (invertedMask r) /\
  Forall (fun s => canonical s = true)
    [ipLowStr r; ipHighStr r; prefixMaskStr r; invertedMaskStr r].
Proof.
  destruct (getMaskRange_Normal ipNum p Hp) as (E & Hlo & Hhi).
  cbv zeta in E, Hlo, Hhi.
  pose proof (Z.mod_pos_bound ipNum (2 ^ 32) ltac:(lia)) as Ha.
  pose proof (getPrefixMask_range p Hp) as HP.
  pose proof (getMask_range (32 - p) ltac:(lia)) as HM.
  change (2 ^ 32) with 4294967296 in *.
  rewrite E in Hr.
  assert (Er : r = _) by (symmetry; exact (f_equal
    (fun c => match c with Normal x => x | _ => r end) Hr)).
  rewrite Er.
  cbv [ipLow ipLowStr ipHigh ipHighStr prefixMask prefixMaskStr
       invertedMask invertedMaskStr].
  repeat split; try (apply toDecimal_dotted; lia).
  repeat constructor; apply dotted_canonical; lia.
Qed.

Lemma X11_descriptor_strings_witness :
  toDecimal (IPStr (ipLowStr (descriptor 33752064 24)))
    = Normal (ipLow (descriptor 33752064 24)) /\
  toDecimal (IPStr (prefixMaskStr (descriptor 33752064 24)))
    = Normal (prefixMask (descriptor 33752064 24)).
Proof.
  pose proof (X11_descriptor_strings 33752069 24 (descriptor 33752064 24)
                ltac:(lia) eq_refl) as H.
  split; apply H.
Defined.

(** ** The search, characterised *)

Section Search.

Variables ipNum ipEndNum : Z.

(** What [getOptimalRange] returns is the block at the one prefix size
    that passes the test while the next smaller size does not. *)
Lemma getOptimalRange_Some_iff r :
  getOptimalRange ipNum ipEndNum = Normal (Some r) <->
  exists q,
    0 <= q <= 32 /\ getMaskRange ipNum q = Normal r /\
    fits ipNum ipEndNum q = true /\
    (q = 0 \/ fits ipNum ipEndNum (q - 1) = false).
Proof.
  destruct (getOptimalRange_spec ipNum ipEndNum)
    as (o & Hrun & [[-> Hf] | (q & r0 & Hq & -> & Hmr & Hall & Hstop)]);
    rewrite Hrun; split.
  - discriminate.
  - intros (q & Hq & _ & Hfq & _).
    rewrite (fits_mono ipNum ipEndNum q 32) in Hf by (lia || assumption).
    discriminate.
  - intros [= <-]. exists q. repeat split; try lia; try assumption.
    apply Hall. lia.
  - intros (q' & Hq' & Hmr' & Hf' & Hstop').
    assert (q' = q); [|subst q'; congruence].
    destruct (Z.lt_trichotomy q' q) as [Hlt | [Heq | Hgt]]; [|exact Heq|].
    + destruct Hstop as [->|Hfail]; [lia|].
      rewrite (fits_mono ipNum ipEndNum q' (q - 1)) in Hfail
        by (lia || assumption).
      discriminate.
    + destruct Hstop' as [->|Hfail]; [lia|].
      rewrite (fits_mono ipNum ipEndNum q (q' - 1)) in Hfail
        by (lia || apply Hall; lia).
      discriminate.
Qed.

Lemma getOptimalRange_None_iff :
  getOptimalRange ipNum ipEndNum = Normal None <->
  ~ (0 <= ipNum <= 4294967295 /\ ipNum <= ipEndNum).
Proof.
  assert (H32 : fits ipNum ipEndNum 32 = true <->
                0 <= ipNum <= 4294967295 /\ ipNum <= ipEndNum).
  { rewrite fits_iff by lia. replace (32 - 32) with 0 by lia.
    change (2 ^ 0) with 1. rewrite Z.mod_1_r.
    change (2 ^ 32) with 4294967296. lia. }
  destruct (getOptimalRange_spec ipNum ipEndNum)
    as (o & Hrun & [[-> Hf] | (q & r0 & Hq & -> & Hmr & Hall & Hstop)]);
    rewrite Hrun; split; try discriminate; try reflexivity.
  - intros _ Hin. apply H32 in Hin. congruence.
  - intros Hn. exfalso. apply Hn, H32, Hall. lia.
Qed.

End Search.

Section SearchEnds.

(** A block that starts at the address and ends within the end is
    never wider than the block the search returns. *)
Lemma getOptimalRange_widest_at ipNum e r q rq :
  getOptimalRange ipNum e = Normal (Some r) ->
  0 <= q <= 32 -> getMaskRange ipNum q = Normal rq ->
  ipLow rq = ipNum -> ipHigh rq <= e ->
  prefixSize r <= q /\ ipHigh rq <= ipHigh r.
Proof.
  intros Hr Hq Hmq Hlq Hhq.
  apply getOptimalRange_Some_iff in Hr as (q0 & Hq0 & Hmr & Hf & Hstop).
  destruct (getMaskRange_fields _ _ _ Hq0 Hmr)
    as (Hlow & Hhigh & _ & _ & Hps & _).
  destruct (getMaskRange_fields _ _ _ Hq Hmq)
    as (Hlow' & Hhigh' & _ & _ & Hps' & _).
  assert (Hfq : fits ipNum e q = true).
  { unfold fits. rewrite Hmq. apply andb_true_iff.
    now rewrite Z.eqb_eq, Z.leb_le. }
  assert (Hle : q0 <= q).
  { destruct (Z.le_gt_cases q0 q) as [|Hgt]; [assumption|exfalso].
    destruct Hstop as [->|Hfail]; [lia|].
    rewrite (fits_mono ipNum e q (q0 - 1)) in Hfail by (lia || assumption).
    discriminate. }
  assert (Hl0 : ipLow r = ipNum).
  { unfold fits in Hf. rewrite Hmr in Hf.
    apply andb_true_iff in Hf as [Hf _]. now apply Z.eqb_eq in Hf. }
  rewrite !getMask_closed in * by lia.
  assert (2 ^ (32 - q) <= 2 ^ (32 - q0)) by (apply Z.pow_le_mono_r; lia).
  lia.
Qed.

(** What the search returns starts at the address, ends within the end
    and is a block of a prefix size from 0 to 32. *)
Lemma getOptimalRange_Some_block ipNum e r :
  getOptimalRange ipNum e = Normal (Some r) ->
  0 <= ipNum <= 4294967295 /\ ipLow r = ipNum /\ ipNum <= ipHigh r <= e /\
  0 <= prefixSize r <= 32 /\ getMaskRange ipNum (prefixSize r) = Normal r.
Proof.
  intros Hr.
  apply getOptimalRange_Some_iff in Hr as (q & Hq & Hmr & Hf & _).
  pose proof Hf as Hf0. apply fits_iff in Hf0 as (Ha & _ & _); [|lia].
  change (2 ^ 32) with 4294967296 in Ha.
  destruct (getMaskRange_fields _ _ _ Hq Hmr)
    as (_ & _ & _ & _ & Hps & _ & _ & Hlh).
  unfold fits in Hf. rewrite Hmr in Hf.
  apply andb_true_iff in Hf as [Hl Hh].
  apply Z.eqb_eq in Hl. apply Z.leb_le in Hh.
  rewrite Hps. repeat split; try lia; assumption.
Qed.

(** A later end gives a block at least as wide. *)
Lemma getOptimalRange_later_end ipNum e e' r :
  getOptimalRange ipNum e = Normal (Some r) -> e <= e' ->
  exists r', getOptimalRange ipNum e' = Normal (Some r') /\
             ipLow r' = ipLow r /\ prefixSize r' <= prefixSize r /\
             ipHigh r <= ipHigh r'.
Proof.
  intros Hr He.
  destruct (getOptimalRange_Some_block _ _ _ Hr)
    as (Ha & Hl & Hh & Hps & Hmr).
  destruct (getOptimalRange_Some ipNum e' ltac:(lia) ltac:(lia))
    as (r' & Hr' & Hlow' & Hhigh').
  exists r'. split; [exact Hr'|]. split; [lia|].
  apply (getOptimalRange_widest_at ipNum e' r' (prefixSize r) r Hr' Hps Hmr Hl).
  lia.
Qed.

(** An end that still covers the block gives the same block. *)
Lemma getOptimalRange_stable ipNum e e' r :
  getOptimalRange ipNum e = Normal (Some r) -> ipHigh r <= e' <= e ->
  getOptimalRange ipNum e' = Normal (Some r).
Proof.
  intros Hr He.
  destruct (getOptimalRange_Some_block _ _ _ Hr)
    as (Ha & Hl & Hh & Hps & Hmr).
  destruct (getOptimalRange_Some ipNum e' ltac:(lia) ltac:(lia))
    as (r' & Hr' & Hlow' & Hhigh').
  destruct (getOptimalRange_Some_block _ _ _ Hr')
    as (_ & _ & _ & Hps' & Hmr').
  destruct (getOptimalRange_widest_at ipNum e' r' (prefixSize r) r
              Hr' Hps Hmr Hl ltac:(lia)) as [H1 _].
  destruct (getOptimalRange_widest_at ipNum e r (prefixSize r') r'
              Hr Hps' Hmr' Hlow' ltac:(lia)) as [H2 _].
  assert (E : prefixSize r' = prefixSize r) by lia.
  rewrite E in Hmr'. rewrite Hr'. congruence.
Qed.

End SearchEnds.

(** X12.  [getOptimalRange] returns [null] exactly when its first
    argument is no 32-bit unsigned integer or lies after its second;
    in every other case it returns a block that starts at its first
    argument. *)
Theorem X12_getOptimalRange_null (ipNum ipEndNum : Z) :
  (getOptimalRange ipNum ipEndNum = Normal None <->
   ~ (0 <= ipNum <= 4294967295 /\ ipNum <= ipEndNum)) /\
  (0 <= ipNum <= 4294967295 -> ipNum <= ipEndNum ->
   exists r, getOptimalRange ipNum ipEndNum = Normal (Some r) /\
             ipLow r = ipNum /\ ipNum <= ipHigh r <= ipEndNum).
Proof.
  split; [apply getOptimalRange_None_iff | apply getOptimalRange_Some].
Qed.

Lemma X12_getOptimalRange_null_witness :
  getOptimalRange 4294967296 4294967297 = Normal None /\
  getOptimalRange 9 8 = Normal None /\
  exists r, getOptimalRange 8 9 = Normal (Some r) /\
            ipLow r = 8 /\ 8 <= ipHigh r <= 9.
Proof.
  split; [|split].
  - apply (proj1 (X12_getOptimalRange_null 4294967296 4294967297)). lia.
  - apply (proj1 (X12_getOptimalRange_null 9 8)). lia.
  - apply (proj2 (X12_getOptimalRange_null 8 9)); lia.
Defined.

(** X13.  A later end never gives a narrower block: if the search from
    an address up to [e] finds a block, the search from the same
    address up to any [e' >= e] finds a block with the same low
    address, a prefix size no larger and a high address no smaller.
    And any end between the block's high address and [e] gives the
    very same block. *)
Theorem X13_getOptimalRange_monotone (ipNum e e' : Z) (r : SubnetAnalysis)
  (Hr : getOptimalRange ipNum e = Normal (Some r)) :
  (e <= e' ->
   exists r', getOptimalRange ipNum e' = Normal (Some r') /\
              ipLow r' = ipLow r /\ prefixSize r' <= prefixSize r /\
              ipHigh r <= ipHigh r') /\
  (ipHigh r <= e' <= e -> getOptimalRange ipNum e' = Normal (Some r)).
Proof.
  split.
  - now apply getOptimalRange_later_end.
  - now apply getOptimalRange_stable.
Qed.

Lemma X13_getOptimalRange_monotone_witness :
  exists r', getOptimalRange 167772672 167773183 = Normal (Some r') /\
             ipLow r' = ipLow (descriptor 167772672 24) /\
             prefixSize r' <= prefixSize (descriptor 167772672 24) /\
             ipHigh (descriptor 167772672 24) <= ipHigh r'.
Proof.
  apply (X13_getOptimalRange_monotone 167772672 167772927 167773183
           (descriptor 167772672 24) eq_refl).
  lia.
Defined.

(** ** The decomposition, characterised *)

Section Decomposition.

Variable e : Z.

(** Lying end to end and being, each, what the search returns at its
    low address determines the list. *)
Lemma decomposition_unique l : forall l' cur,
  tiles cur l e ->
  Forall (fun b => getOptimalRange (ipLow b) e = Normal (Some b)) l ->
  tiles cur l' e ->
  Forall (fun b => getOptimalRange (ipLow b) e = Normal (Some b)) l' ->
  l = l'.
Proof.
  induction l as [|b l IH]; intros [|b' l'] cur Ht Ho Ht' Ho'.
  - reflexivity.
  - cbn [tiles] in Ht, Ht'. lia.
  - cbn [tiles] in Ht, Ht'. lia.
  - destruct Ht as (Hl & Hb & Ht). destruct Ht' as (Hl' & Hb' & Ht').
    apply Forall_cons_iff in Ho as [Hob Ho].
    apply Forall_cons_iff in Ho' as [Hob' Ho'].
    assert (b' = b) as -> by (rewrite Hl, <- Hl' in Hob; congruence).
    f_equal. exact (IH l' _ Ht Ho Ht' Ho').
Qed.

(** [calculate] on two integer addresses, start no later than end,
    returns the one list with these two properties. *)
Lemma calculate_Some_iff s l :
  0 <= s <= e -> e <= 4294967295 ->
  calculate (IPNum s) (IPNum e) = Normal (Some l) <->
  tiles s l e /\
  Forall (fun b => getOptimalRange (ipLow b) e = Normal (Some b)) l.
Proof.
  intros Hs He. unfold calculate.
  rewrite !toDecimal_num by lia. cbn [bind try_catch].
  destruct (Z.ltb_spec e s); [lia|].
  destruct (calculate_loop_tiles e (Z.to_nat (e - s + 1)) s [])
    as (l0 & Hrun & Ht & Ho); try lia.
  cbn [app] in Hrun. rewrite Hrun. split.
  - intros [= <-]. now split.
  - intros [Ht' Ho']. do 2 f_equal.
    exact (decomposition_unique l0 l s Ht Ho Ht' Ho').
Qed.

Lemma tiles_skipn l : forall cur i b,
  tiles cur l e -> nth_error l i = Some b ->
  tiles (ipLow b) (skipn i l) e.
Proof.
  induction l as [|a l IH]; intros cur i b Ht Hb.
  - destruct i; discriminate.
  - destruct i as [|i].
    + injection Hb as <-. cbn [skipn]. destruct Ht as (Hl & Ht).
      cbn [tiles]. split; [reflexivity|]. now rewrite Hl.
    + destruct Ht as (_ & _ & Ht). cbn [skipn]. exact (IH _ i b Ht Hb).
Qed.

Lemma tiles_firstn l : forall cur i b,
  tiles cur l e -> nth_error l i = Some b ->
  tiles cur (firstn (S i) l) (ipHigh b).
Proof.
  induction l as [|a l IH]; intros cur i b Ht Hb.
  - destruct i; discriminate.
  - destruct Ht as (Hl & Hh & Ht). destruct i as [|i].
    + injection Hb as <-. cbn [firstn tiles]. repeat split; lia.
    + rewrite firstn_cons. cbn [tiles].
      pose proof (IH _ i b Ht Hb) as Hf.
      pose proof (tiles_le _ _ _ Hf). repeat split; try lia. exact Hf.
Qed.

End Decomposition.

Section EitherForm.

(** The entry points look at their address arguments only through
    [toDecimal]. *)
Lemma calculate_of_decimal a b s e :
  toDecimal a = Normal s -> toDecimal b = Normal e ->
  calculate a b = calculate (IPNum s) (IPNum e).
Proof.
  intros Ha Hb. unfold calculate.
  rewrite Ha, Hb, !toDecimal_num; [reflexivity| |].
  - exact (toDecimal_range _ _ Hb).
  - exact (toDecimal_range _ _ Ha).
Qed.

End EitherForm.

(** X14.  A CIDR block goes through [calculate] unchanged: for the
    descriptor [r] that [getMaskRange] returns for a prefix size from 0
    to 32, [calculate] from [r]'s low address to its high address, given
    as integers or as the descriptor's own strings, returns the list of
    the single block [r].  With prefix size 32 this is the case of a
    range of one address. *)
Theorem X14_calculate_of_block (ipNum p : Z) (r : SubnetAnalysis)
  (Hp : 0 <= p <= 32) (Hr : getMaskRange ipNum p = Normal r) :
  calculate (IPNum (ipLow r)) (IPNum (ipHigh r)) = Normal (Some [r]) /\
  calculate (IPStr (ipLowStr r)) (IPStr (ipHighStr r)) = Normal (Some [r]).
Proof.
  destruct (getMaskRange_fields _ _ _ Hp Hr)
    as (Hlow & Hhigh & _ & _ & Hps & _ & Hl0 & Hlh).
  assert (Ha : 0 <= ipNum mod 2 ^ 32 <= 4294967295).
  { pose proof (Z.mod_pos_bound ipNum (2 ^ 32) ltac:(lia)) as Ha.
    change (2 ^ 32) with 4294967296 in *. lia. }
  assert (Hh : ipHigh r <= 4294967295)
    by (change (2 ^ 32) with 4294967296 in Hlh; lia).
  assert (Hnum : calculate (IPNum (ipLow r)) (IPNum (ipHigh r))
                 = Normal (Some [r])).
  { apply calculate_Some_iff; try lia. split.
    - cbn [tiles]. repeat split; lia.
    - constructor; [|constructor].
      apply getOptimalRange_Some_iff. exists p.
      assert (Hself : getMaskRange (ipLow r) p = Normal r).
      { rewrite getMaskRange_wraps in Hr.
        rewrite getMaskRange_descriptor in Hr by lia.
        assert (E : r = descriptor
                      (2 ^ (32 - p) * (ipNum mod 2 ^ 32 / 2 ^ (32 - p))) p)
          by congruence.
        rewrite E. cbv [descriptor ipLow].
        pose proof (block_low_high_range (ipNum mod 2 ^ 32) p Ha Hp).
        rewrite getMaskRange_descriptor by lia.
        now rewrite block_of_low by lia. }
      pose proof (pow2_pos (32 - p) ltac:(lia)) as Hpos.
      rewrite getMask_closed in Hhigh by lia.
      assert (Hmod : ipLow r mod 2 ^ (32 - p) = 0).
      { rewrite Hlow, land_prefix_mask by lia.
        rewrite Z.mul_comm. apply Z.mod_mul. lia. }
      repeat split; try lia; try assumption.
      + apply fits_iff; [lia|]. change (2 ^ 32) with 4294967296. lia.
      + destruct (Z.eq_dec p 0) as [->|Hp0]; [now left | right].
        destruct (fits (ipLow r) (ipHigh r) (p - 1)) eqn:Hf; [|reflexivity].
        apply fits_iff in Hf as (_ & _ & Hle); [|lia].
        replace (32 - (p - 1)) with (32 - p + 1) in Hle by lia.
        rewrite pow2_double in Hle by lia. lia. }
  split; [exact Hnum|].
  destruct (getMaskRange_Normal ipNum p Hp) as (E & _). cbv zeta in E.
  assert (Er : r = _) by (symmetry; rewrite E in Hr; exact (f_equal
    (fun c => match c with Normal x => x | _ => r end) Hr)).
  rewrite <- Hnum.
  apply calculate_of_decimal.
  - rewrite Er at 1. cbv [ipLowStr]. rewrite <- Hlow.
    apply toDecimal_dotted. lia.
  - rewrite Er at 1. cbv [ipHighStr]. rewrite <- Hlow, <- Hhigh.
    apply toDecimal_dotted. lia.
Qed.

Lemma X14_calculate_of_block_witness :
  calculate (IPNum (ipLow (descriptor 33752064 24)))
    (IPNum (ipHigh (descriptor 33752064 24)))
    = Normal (Some [descriptor 33752064 24]) /\
  calculate (IPStr (ipLowStr (descriptor 16909060 32)))
    (IPStr (ipHighStr (descriptor 16909060 32)))
    = Normal (Some [descriptor 16909060 32]).
Proof.
  split.
  - exact (proj1 (X14_calculate_of_block 33752069 24
                    (descriptor 33752064 24) ltac:(lia) eq_refl)).
  - exact (proj2 (X14_calculate_of_block 16909060 32
                    (descriptor 16909060 32) ltac:(lia) eq_refl)).
Defined.

Section Cuts.

Lemma calculate_Some_inv a b s e l :
  toDecimal a = Normal s -> toDecimal b = Normal e ->
  calculate a b = Normal (Some l) ->
  0 <= s <= e /\ e <= 4294967295 /\
  tiles s l e /\
  Forall (fun x => getOptimalRange (ipLow x) e = Normal (Some x)) l.
Proof.
  intros Ha Hb Hl.
  pose proof (toDecimal_range _ _ Ha) as Hs.
  pose proof (toDecimal_range _ _ Hb) as He.
  assert (Hse : s <= e).
  { unfold calculate in Hl. rewrite Ha, Hb in Hl. cbn [bind try_catch] in Hl.
    destruct (Z.ltb_spec e s); [discriminate Hl | assumption]. }
  rewrite (calculate_of_decimal a b s e Ha Hb) in Hl.
  apply calculate_Some_iff in Hl; [|lia|lia]. repeat split; try lia; apply Hl.
Qed.

Lemma Forall_skipn' {A} (P : A -> Prop) i l : Forall P l -> Forall P (skipn i l).
Proof.
  intros H. rewrite <- (firstn_skipn i l) in H. now apply Forall_app in H.
Qed.

Lemma Forall_firstn' {A} (P : A -> Prop) i l :
  Forall P l -> Forall P (firstn i l).
Proof.
  intros H. rewrite <- (firstn_skipn i l) in H. now apply Forall_app in H.
Qed.

End Cuts.

(** X15.  Cutting a range at a block boundary cuts its decomposition:
    if [calculate] returns the list [l] and [b] is its block number
    [i], then [calculate] from [b]'s low address to the same end
    returns [l] from [b] on, and [calculate] from the same start to
    [b]'s high address returns [l] up to and with [b]. *)
Theorem X15_calculate_cut (ipStart ipEnd : IPAny) (s e : Z)
  (l : list SubnetAnalysis) (i : nat) (b : SubnetAnalysis)
  (Hs : toDecimal ipStart = Normal s) (He : toDecimal ipEnd = Normal e)
  (Hl : calculate ipStart ipEnd = Normal (Some l))
  (Hb : nth_error l i = Some b) :
  calculate (IPNum (ipLow b)) ipEnd = Normal (Some (skipn i l)) /\
  calculate ipStart (IPNum (ipHigh b)) = Normal (Some (firstn (S i) l)).
Proof.
  destruct (calculate_Some_inv _ _ _ _ _ Hs He Hl) as (Hse & Hemax & Ht & Ho).
  pose proof (tiles_within _ _ _ Ht) as Hw.
  assert (Hbw : s <= ipLow b /\ ipLow b <= ipHigh b <= e).
  { rewrite Forall_forall in Hw. apply Hw. eapply nth_error_In. exact Hb. }
  split.
  - rewrite (calculate_of_decimal _ _ (ipLow b) e
               (toDecimal_num (ipLow b) ltac:(lia)) He).
    apply calculate_Some_iff; try lia. split.
    + exact (tiles_skipn e l s i b Ht Hb).
    + now apply Forall_skipn'.
  - rewrite (calculate_of_decimal _ _ s (ipHigh b)
               Hs (toDecimal_num (ipHigh b) ltac:(lia))).
    apply calculate_Some_iff; try lia.
    pose proof (tiles_firstn e l s i b Ht Hb) as Htf.
    split; [exact Htf|].
    pose proof (tiles_within _ _ _ Htf) as Hwf.
    pose proof (Forall_firstn' _ (S i) l Ho) as Hof.
    pose proof (Forall_and Hwf Hof) as Hboth.
    eapply Forall_impl; [|exact Hboth]. cbn. intros x [Hx Hox].
    apply (getOptimalRange_stable (ipLow x) e); [exact Hox | lia].
Qed.

Lemma X15_calculate_cut_witness :
  calculate (IPNum (ipLow (descriptor 167772672 23))) (IPStr "10.0.3.255")
    = Normal (Some (skipn 1 [descriptor 167772671 32;
                             descriptor 167772672 23])) /\
  calculate (IPStr "10.0.1.255") (IPNum (ipHigh (descriptor 167772672 23)))
    = Normal (Some (firstn 2 [descriptor 167772671 32;
                              descriptor 167772672 23])).
Proof.
  exact (X15_calculate_cut (IPStr "10.0.1.255") (IPStr "10.0.3.255")
           167772671 167773183
           [descriptor 167772671 32; descriptor 167772672 23] 1
           (descriptor 167772672 23) eq_refl eq_refl eq_refl eq_refl).
Defined.

(** X16.  The blocks [calculate] returns are as wide as they can be:
    no CIDR block that starts at the low address of a returned block
    and ends within the range is wider than that block.  In particular
    no returned block and its successor together make up one CIDR
    block. *)
Theorem X16_calculate_blocks_widest (ipStart ipEnd : IPAny) (s e : Z)
  (l : list SubnetAnalysis)
  (Hs : toDecimal ipStart = Normal s) (He : toDecimal ipEnd = Normal e)
  (Hl : calculate ipStart ipEnd = Normal (Some l)) :
  (forall b q rq,
      In b l -> 0 <= q <= 32 -> getMaskRange (ipLow b) q = Normal rq ->
      ipLow rq = ipLow b -> ipHigh rq <= e ->
      prefixSize b <= q /\ ipHigh rq <= ipHigh b) /\
  (forall i b b' q rq,
      nth_error l i = Some b -> nth_error l (S i) = Some b' ->
      0 <= q <= 32 -> getMaskRange (ipLow b) q = Normal rq ->
      ~ (ipLow rq = ipLow b /\ ipHigh rq = ipHigh b')).
Proof.
  destruct (calculate_Some_inv _ _ _ _ _ Hs He Hl) as (Hse & Hemax & Ht & Ho).
  assert (Hwide : forall b q rq,
             In b l -> 0 <= q <= 32 -> getMaskRange (ipLow b) q = Normal rq ->
             ipLow rq = ipLow b -> ipHigh rq <= e ->
             prefixSize b <= q /\ ipHigh rq <= ipHigh b).
  { intros b q rq Hin Hq Hmq Hlq Hhq. rewrite Forall_forall in Ho.
    exact (getOptimalRange_widest_at _ _ _ _ _ (Ho b Hin) Hq Hmq Hlq Hhq). }
  split; [exact Hwide|].
  intros i b b' q rq Hb Hb' Hq Hmq [Hlq Hhq].
  pose proof (tiles_consecutive l s e i b b' Ht Hb Hb') as Hnext.
  pose proof (tiles_within _ _ _ Ht) as Hw. rewrite Forall_forall in Hw.
  pose proof (Hw b' (nth_error_In _ _ Hb')) as Hb'w.
  destruct (Hwide b q rq (nth_error_In _ _ Hb) Hq Hmq Hlq ltac:(lia)). lia.
Qed.

Lemma X16_calculate_blocks_widest_witness :
  prefixSize (descriptor 167772672 23) <= 24 /\
  ipHigh (descriptor 167772672 24) <= ipHigh (descriptor 167772672 23).
Proof.
  exact (proj1 (X16_calculate_blocks_widest
                  (IPStr "10.0.1.255") (IPStr "10.0.3.255")
                  167772671 167773183
                  [descriptor 167772671 32; descriptor 167772672 23]
                  eq_refl eq_refl eq_refl)
           (descriptor 167772672 23) 24 (descriptor 167772672 24)
           ltac:(right; left; reflexivity) ltac:(lia) eq_refl eq_refl
           ltac:(vm_compute; discriminate)).
Defined.

Section Sizes.

Lemma tiles_sum e l : forall cur,
  tiles cur l e ->
  Forall (fun b => ipHigh b - ipLow b + 1 = 2 ^ invertedMaskSize b) l ->
  fold_right (fun b acc => 2 ^ invertedMaskSize b + acc) 0 l = e - cur + 1.
Proof.
  induction l as [|b l IH]; intros cur Ht Hsz; cbn [tiles fold_right] in *.
  - lia.
  - destruct Ht as (Hl & Hh & Ht). apply Forall_cons_iff in Hsz as [Hb Hsz].
    rewrite (IH _ Ht Hsz). lia.
Qed.

(** What the search returns is a CIDR block. *)
Lemma getOptimalRange_cidr a e b :
  getOptimalRange a e = Normal (Some b) ->
  0 <= prefixSize b <= 32 /\
  invertedMaskSize b = 32 - prefixSize b /\
  ipHigh b - ipLow b + 1 = 2 ^ invertedMaskSize b /\
  ipLow b mod 2 ^ invertedMaskSize b = 0.
Proof.
  intros Hb.
  destruct (getOptimalRange_Some_block _ _ _ Hb) as (Ha & Hl & Hh & Hps & Hmr).
  destruct (getMaskRange_fields _ _ _ Hps Hmr)
    as (Hlow & Hhigh & _ & _ & _ & Hms & _).
  rewrite Hms. rewrite getMask_closed in Hhigh by lia.
  rewrite (Z.mod_small a) in Hlow by (change (2 ^ 32) with 4294967296; lia).
  rewrite land_prefix_mask in Hlow
    by (lia || (change (2 ^ 32) with 4294967296; lia)).
  pose proof (pow2_pos (32 - prefixSize b) ltac:(lia)).
  repeat split; try lia.
  rewrite Hlow, Z.mul_comm. apply Z.mod_mul. lia.
Qed.

End Sizes.

(** X17.  Every block [calculate] returns is a CIDR block: its prefix
    size is from 0 to 32, it holds [2 ^ invertedMaskSize] addresses
    with [invertedMaskSize = 32 - prefixSize], and it starts at a
    multiple of its size.  The sizes of the blocks add up to the number
    of addresses of the range. *)
Theorem X17_calculate_cidr_blocks (ipStart ipEnd : IPAny) (s e : Z)
  (l : list SubnetAnalysis)
  (Hs : toDecimal ipStart = Normal s) (He : toDecimal ipEnd = Normal e)
  (Hl : calculate ipStart ipEnd = Normal (Some l)) :
  Forall (fun b =>
            0 <= prefixSize b <= 32 /\
            invertedMaskSize b = 32 - prefixSize b /\
            ipHigh b - ipLow b + 1 = 2 ^ invertedMaskSize b /\
            ipLow b mod 2 ^ invertedMaskSize b = 0) l /\
  fold_right (fun b acc => 2 ^ invertedMaskSize b + acc) 0 l = e - s + 1.
Proof.
  destruct (calculate_Some_inv _ _ _ _ _ Hs He Hl) as (Hse & Hemax & Ht & Ho).
  assert (Hc : Forall (fun b =>
            0 <= prefixSize b <= 32 /\
            invertedMaskSize b = 32 - prefixSize b /\
            ipHigh b - ipLow b + 1 = 2 ^ invertedMaskSize b /\
            ipLow b mod 2 ^ invertedMaskSize b = 0) l).
  { eapply Forall_impl; [|exact Ho]. cbn. intros b Hb.
    exact (getOptimalRange_cidr _ _ _ Hb). }
  split; [exact Hc|].
  apply tiles_sum; [exact Ht|].
  eapply Forall_impl; [|exact Hc]. cbn. tauto.
Qed.

Lemma X17_calculate_cidr_blocks_witness :
  fold_right (fun b acc => 2 ^ invertedMaskSize b + acc) 0
    [descriptor 167772671 32; descriptor 167772672 23]
  = 167773183 - 167772671 + 1.
Proof.
  exact (proj2 (X17_calculate_cidr_blocks
                  (IPStr "10.0.1.255") (IPStr "10.0.3.255")
                  167772671 167773183
                  [descriptor 167772671 32; descriptor 167772672 23]
                  eq_refl eq_refl eq_refl)).
Defined.

(** ** Masks and prefix sizes *)

Section MaskPrefix.

(** A prefix mask has as many leading 1-bits as its prefix size. *)
Lemma leading_ones_getPrefixMask p :
  0 <= p <= 32 -> leading_ones (getPrefixMask p) = p.
Proof.
  intros Hp. pose proof (fun k => getPrefixMask_testbit p k Hp) as Hbit.
  generalize dependent (getPrefixMask p). intros m Hbit.
  destruct (leading_ones_from_spec m 32 31) as [Hones Hzero].
  pose proof (leading_ones_from_range m 32 31) as Hr.
  fold (leading_ones m) in Hones, Hzero, Hr.
  destruct (Z.lt_trichotomy (leading_ones m) p) as [Hlt | [Heq | Hgt]];
    [exfalso | exact Heq | exfalso].
  - specialize (Hzero ltac:(lia)). rewrite Hbit in Hzero.
    destruct (Z.leb_spec (32 - p) (31 - leading_ones m)); [|lia].
    destruct (Z.ltb_spec (31 - leading_ones m) 32); [discriminate Hzero | lia].
  - specialize (Hones (31 - p) ltac:(lia)). rewrite Hbit in Hones.
    destruct (Z.leb_spec (32 - p) (31 - p)); [lia | discriminate Hones].
Qed.

(** The prefix mask of the leading 1-bits of a mask lies within the
    mask, and no longer prefix mask does. *)
Lemma leading_ones_within m :
  Z.land m (getPrefixMask (leading_ones m)) = getPrefixMask (leading_ones m) /\
  (forall q, 0 <= q <= 32 ->
             Z.land m (getPrefixMask q) = getPrefixMask q ->
             q <= leading_ones m).
Proof.
  destruct (leading_ones_from_spec m 32 31) as [Hones Hzero].
  pose proof (leading_ones_from_range m 32 31) as Hr.
  fold (leading_ones m) in Hones, Hzero, Hr. split.
  - apply Z.bits_inj'. intros k Hk.
    rewrite Z.land_spec, getPrefixMask_testbit by lia.
    destruct (Z.leb_spec (32 - leading_ones m) k), (Z.ltb_spec k 32);
      cbn [andb]; rewrite ?andb_false_r; try reflexivity.
    rewrite Hones by lia. reflexivity.
  - intros q Hq Hland.
    destruct (Z.le_gt_cases q (leading_ones m)) as [|Hgt]; [assumption|].
    exfalso. specialize (Hzero ltac:(lia)).
    apply (f_equal (fun z => Z.testbit z (31 - leading_ones m))) in Hland.
    rewrite Z.land_spec, getPrefixMask_testbit, Hzero in Hland by lia.
    destruct (Z.leb_spec (32 - q) (31 - leading_ones m)); [|lia].
    destruct (Z.ltb_spec (31 - leading_ones m) 32); [|lia].
    discriminate Hland.
Qed.

Lemma calculateSubnetMask_Some_inv ip p r :
  calculateSubnetMask ip p = Normal (Some r) ->
  exists a, toDecimal ip = Normal a /\ getMaskRange a p = Normal r.
Proof.
  unfold calculateSubnetMask.
  destruct (toDecimal_cases ip) as [[a Ha] | Ha]; rewrite Ha;
    cbn [try_catch]; [|discriminate].
  destruct (getMaskRange a p) as [r0| |] eqn:E; cbn [bind];
    try discriminate.
  intros [= <-]. exists a. now split.
Qed.

Lemma calculateCIDRPrefix_Some_inv ip mask r :
  calculateCIDRPrefix ip mask = Normal (Some r) ->
  exists a m,
    toDecimal ip = Normal a /\ toDecimal mask = Normal m /\
    getMaskRange a (leading_ones m) = Normal r.
Proof.
  intros Hr.
  destruct (toDecimal_cases ip) as [[a Ha] | Ha];
    [|unfold calculateCIDRPrefix in Hr; rewrite Ha in Hr; discriminate Hr].
  destruct (toDecimal_cases mask) as [[m Hm] | Hm];
    [|unfold calculateCIDRPrefix in Hr; rewrite Ha, Hm in Hr;
      discriminate Hr].
  destruct (calculateCIDRPrefix_Normal _ _ _ _ Ha Hm) as (_ & r0 & Hr0 & Hrun).
  exists a, m. repeat split; try assumption. congruence.
Qed.

End MaskPrefix.

(** X18.  From a prefix size to its mask and back: if
    [calculateSubnetMask] returns the descriptor [r] for a prefix size
    from 0 to 32, then [calculateCIDRPrefix] on the same address and
    [r]'s prefix mask, given as integer or as string, returns [r]. *)
Theorem X18_prefix_mask_round_trip (ip : IPAny) (p : Z) (r : SubnetAnalysis)
  (Hp : 0 <= p <= 32) (Hr : calculateSubnetMask ip p = Normal (Some r)) :
  calculateCIDRPrefix ip (IPNum (prefixMask r)) = Normal (Some r) /\
  calculateCIDRPrefix ip (IPStr (prefixMaskStr r)) = Normal (Some r).
Proof.
  destruct (calculateSubnetMask_Some_inv _ _ _ Hr) as (a & Ha & Hmr).
  destruct (getMaskRange_fields _ _ _ Hp Hmr) as (_ & _ & HP & _).
  pose proof (getPrefixMask_range p Hp) as HPr.
  change (2 ^ 32) with 4294967296 in HPr.
  assert (Hstr : prefixMaskStr r = dotted (getPrefixMask p)).
  { destruct (getMaskRange_Normal a p Hp) as (E & _). cbv zeta in E.
    rewrite E in Hmr.
    now apply (f_equal (fun c => match c with
                                 | Normal x => prefixMaskStr x
                                 | _ => EmptyString end)) in Hmr. }
  assert (Hgo : forall mask,
             toDecimal mask = Normal (getPrefixMask p) ->
             calculateCIDRPrefix ip mask = Normal (Some r)).
  { intros mask Hm.
    destruct (calculateCIDRPrefix_Normal _ _ _ _ Ha Hm)
      as (_ & r0 & Hr0 & Hrun).
    rewrite leading_ones_getPrefixMask in Hr0 by lia. congruence. }
  split; apply Hgo.
  - rewrite HP. apply toDecimal_num. lia.
  - rewrite Hstr. apply toDecimal_dotted. lia.
Qed.

Lemma X18_prefix_mask_round_trip_witness :
  calculateCIDRPrefix (IPStr "2.3.4.5")
    (IPNum (prefixMask (descriptor 33752064 24)))
    = Normal (Some (descriptor 33752064 24)) /\
  calculateCIDRPrefix (IPStr "2.3.4.5")
    (IPStr (prefixMaskStr (descriptor 33752064 24)))
    = Normal (Some (descriptor 33752064 24)).
Proof.
  exact (X18_prefix_mask_round_trip (IPStr "2.3.4.5") 24
           (descriptor 33752064 24) ltac:(lia) eq_refl).
Defined.

(** X19.  The prefix mask [calculateCIDRPrefix] settles on is the
    longest prefix mask whose bits are all set in the given subnet
    mask; it is the given mask itself exactly when that mask is a
    prefix mask, that is contiguous. *)
Theorem X19_longest_prefix_within_mask (ip subnetMask : IPAny) (m : Z)
  (r : SubnetAnalysis)
  (Hm : toDecimal subnetMask = Normal m)
  (Hr : calculateCIDRPrefix ip subnetMask = Normal (Some r)) :
  prefixMask r = getPrefixMask (prefixSize r) /\
  Z.land m (prefixMask r) = prefixMask r /\
  (forall q, 0 <= q <= 32 ->
             Z.land m (getPrefixMask q) = getPrefixMask q ->
             q <= prefixSize r) /\
  (prefixMask r = m <-> exists q, 0 <= q <= 32 /\ m = getPrefixMask q).
Proof.
  destruct (calculateCIDRPrefix_Some_inv _ _ _ Hr)
    as (a & m' & Ha & Hm' & Hmr).
  assert (m' = m) as -> by congruence.
  pose proof (leading_ones_from_range m 32 31) as Hc.
  fold (leading_ones m) in Hc.
  destruct (getMaskRange_fields _ _ _ Hc Hmr)
    as (_ & _ & HP & _ & Hps & _).
  destruct (leading_ones_within m) as [Hin Hmax].
  rewrite HP, Hps. repeat split; try assumption.
  - intros E. exists (leading_ones m). split; [lia | now symmetry].
  - intros (q & Hq & ->). now rewrite leading_ones_getPrefixMask.
Qed.

Lemma X19_longest_prefix_within_mask_witness :
  prefixMask (descriptor 2063597568 8)
    = getPrefixMask (prefixSize (descriptor 2063597568 8)) /\
  Z.land 4278255360 (prefixMask (descriptor 2063597568 8))
    = prefixMask (descriptor 2063597568 8).
Proof.
  pose proof (X19_longest_prefix_within_mask
                (IPStr "123.123.123.1") (IPStr "255.0.255.0") 4278255360
                (descriptor 2063597568 8) eq_refl eq_refl) as H.
  split; apply H.
Defined.

(** ** How many blocks *)

Section Count.

Lemma align_weaken c a k :
  0 <= a <= k -> c mod 2 ^ k = 0 -> c mod 2 ^ a = 0.
Proof.
  intros Hak Hc. pose proof (pow2_pos a ltac:(lia)).
  pose proof (pow2_pos k ltac:(lia)).
  apply Z.mod_divide; [lia|]. apply Z.mod_divide in Hc; [|lia].
  eapply Z.divide_trans; [|exact Hc].
  exists (2 ^ (k - a)). rewrite (pow2_split k a) by lia. lia.
Qed.

Lemma align_same c h : 0 <= h -> c mod 2 ^ h = 0 -> (c + 2 ^ h) mod 2 ^ h = 0.
Proof.
  intros Hh Hc. pose proof (pow2_pos h Hh).
  replace (c + 2 ^ h) with (c + 1 * 2 ^ h) by lia.
  now rewrite Z.mod_add by lia.
Qed.

(** Past a block as wide as the alignment allows, the alignment is
    better by at least one bit. *)
Lemma align_step c h :
  0 <= h -> c mod 2 ^ h = 0 -> c mod 2 ^ (h + 1) <> 0 ->
  (c + 2 ^ h) mod 2 ^ (h + 1) = 0.
Proof.
  intros Hh Hc Hn. pose proof (pow2_pos h Hh) as Hpos.
  pose proof (pow2_double h Hh) as Hd.
  apply Z.mod_divide in Hc; [|lia]. destruct Hc as [k ->].
  destruct (Z.even k) eqn:Hk.
  - exfalso. apply Hn. apply Z.even_spec in Hk as [j ->].
    apply Z.mod_divide; [lia|]. exists j. lia.
  - assert (Ho : Z.odd k = true) by (rewrite <- Z.negb_even, Hk; reflexivity).
    apply Z.odd_spec in Ho as [j ->].
    apply Z.mod_divide; [lia|]. exists (j + 1). lia.
Qed.

Lemma pow2_exponent_le h r B :
  0 <= h -> -1 <= B -> 2 ^ h <= r -> r < 2 ^ (B + 1) -> h <= B.
Proof.
  intros Hh HB Hl Hu.
  destruct (Z.le_gt_cases h B) as [|Hgt]; [assumption|exfalso].
  pose proof (Z.pow_le_mono_r 2 (B + 1) h ltac:(lia) ltac:(lia)). lia.
Qed.

(** The block the search returns, in arithmetic. *)
Lemma getOptimalRange_arith cur e b :
  getOptimalRange cur e = Normal (Some b) ->
  exists h,
    0 <= h <= 32 /\ 0 <= cur <= 4294967295 /\
    ipHigh b = cur + 2 ^ h - 1 /\
    cur mod 2 ^ h = 0 /\ cur + 2 ^ h - 1 <= e /\
    (h = 32 \/ cur mod 2 ^ (h + 1) <> 0 \/ e < cur + 2 ^ (h + 1) - 1).
Proof.
  intros Hb. pose proof Hb as Hb0.
  apply getOptimalRange_Some_iff in Hb0 as (q & Hq & Hmr & Hf & Hstop).
  destruct (getOptimalRange_Some_block _ _ _ Hb) as (Ha & Hl & _).
  destruct (getMaskRange_fields _ _ _ Hq Hmr) as (_ & Hhigh & _).
  rewrite getMask_closed, Hl in Hhigh by lia.
  apply fits_iff in Hf as (_ & Hmod & Hle); [|lia].
  exists (32 - q). repeat split; try lia; try assumption.
  destruct Hstop as [->|Hfail]; [left; lia|].
  destruct (Z.eq_dec q 0) as [->|Hq0]; [left; lia | right].
  replace (32 - q + 1) with (32 - (q - 1)) by lia.
  destruct (Z.eq_dec (cur mod 2 ^ (32 - (q - 1))) 0) as [Hm|]; [|now left].
  right. destruct (Z.lt_ge_cases e (cur + 2 ^ (32 - (q - 1)) - 1));
    [assumption|exfalso].
  assert (fits cur e (q - 1) = true); [|congruence].
  apply fits_iff; [lia|]. change (2 ^ 32) with 4294967296. lia.
Qed.

(** The count of blocks, from how well the current address is aligned
    ([2 ^ a] divides it) and how many addresses are left (fewer than
    [2 ^ (B + 1)]): at most [B - a] blocks of growing size and then at
    most [B + 1] blocks of shrinking size. *)
Lemma blocks_bound e l : forall cur a B,
  e <= 4294967295 ->
  tiles cur l e ->
  Forall (fun b => getOptimalRange (ipLow b) e = Normal (Some b)) l ->
  0 <= a <= 32 -> cur mod 2 ^ a = 0 ->
  -1 <= B -> e - cur + 1 < 2 ^ (B + 1) ->
  Z.of_nat (List.length l) <= B + 1 + Z.max 0 (B - a).
Proof.
  induction l as [|b l IH]; intros cur a B He Ht Ho Ha Hal HB Hr.
  - cbn [List.length]. lia.
  - destruct Ht as (Hlow & Hh & Ht). apply Forall_cons_iff in Ho as [Hob Ho].
    rewrite Hlow in Hob.
    destruct (getOptimalRange_arith _ _ _ Hob)
      as (h & Hhr & Hcur & Hhigh & Hmod & Hfit & Hstop).
    pose proof (pow2_pos h ltac:(lia)) as Hpos.
    pose proof (pow2_double h ltac:(lia)) as Hdbl.
    assert (HhB : h <= B)
      by (apply (pow2_exponent_le h (e - cur + 1) B); lia).
    rewrite Hhigh in Ht.
    replace (cur + 2 ^ h - 1 + 1) with (cur + 2 ^ h) in Ht by lia.
    cbn [List.length]. rewrite Nat2Z.inj_succ.
    destruct (Z.lt_ge_cases (e - cur + 1) (2 ^ (h + 1))) as [Hsmall | Hbig].
    + (* the range limits the block: what is left is less than the block *)
      pose proof (IH (cur + 2 ^ h) h (h - 1) He Ht Ho ltac:(lia)
                    (align_same cur h ltac:(lia) Hmod) ltac:(lia)) as Hn.
      replace (h - 1 + 1) with h in Hn by lia.
      specialize (Hn ltac:(lia)). lia.
    + destruct Hstop as [-> | [Hodd | Hover]]; [| |lia].
      * (* a block of all addresses leaves no room for this case *)
        exfalso. change (2 ^ (32 + 1)) with 8589934592 in Hbig. lia.
      * (* the alignment limits the block: the next address is better
           aligned *)
        assert (Hah : a <= h).
        { destruct (Z.le_gt_cases a h) as [|Hgt]; [assumption|exfalso].
          apply Hodd. apply (align_weaken cur (h + 1) a); [lia | assumption]. }
        assert (Hh31 : h + 1 <= 32).
        { destruct (Z.eq_dec h 32) as [->|]; [|lia]. exfalso.
          change (2 ^ 32) with 4294967296 in *.
          pose proof (tiles_le _ _ _ Ht). lia. }
        pose proof (IH (cur + 2 ^ h) (h + 1) B He Ht Ho ltac:(lia)
                      (align_step cur h ltac:(lia) Hmod Hodd) HB
                      ltac:(lia)) as Hn.
        assert (h + 1 <= B)
          by (apply (pow2_exponent_le (h + 1) (e - cur + 1) B); lia).
        lia.
Qed.

(** From an address other than 0 the blocks of growing size stop below
    [2 ^ 31] or end the range, which saves one block. *)
Lemma blocks_bound_nonzero e l : forall cur a,
  e <= 4294967295 ->
  tiles cur l e ->
  Forall (fun b => getOptimalRange (ipLow b) e = Normal (Some b)) l ->
  0 < cur -> 0 <= a <= 31 -> cur mod 2 ^ a = 0 ->
  Z.of_nat (List.length l) <= 62 - a.
Proof.
  induction l as [|b l IH]; intros cur a He Ht Ho Hcur Ha Hal.
  - cbn [List.length]. lia.
  - destruct Ht as (Hlow & Hh & Ht). apply Forall_cons_iff in Ho as [Hob Ho].
    rewrite Hlow in Hob.
    destruct (getOptimalRange_arith _ _ _ Hob)
      as (h & Hhr & Hcr & Hhigh & Hmod & Hfit & Hstop).
    pose proof (pow2_pos h ltac:(lia)) as Hpos.
    pose proof (pow2_double h ltac:(lia)) as Hdbl.
    assert (Hh31 : h <= 31).
    { destruct (Z.eq_dec h 32) as [->|]; [exfalso|lia].
      change (2 ^ 32) with 4294967296 in *. lia. }
    rewrite Hhigh in Ht.
    replace (cur + 2 ^ h - 1 + 1) with (cur + 2 ^ h) in Ht by lia.
    cbn [List.length]. rewrite Nat2Z.inj_succ.
    destruct (Z.lt_ge_cases (e - cur + 1) (2 ^ (h + 1))) as [Hsmall | Hbig].
    + (* the range limits the block *)
      destruct (Z.eq_dec h 31) as [->|Hne].
      * (* the block is the upper half of the address space *)
        assert (Hc : cur = 2147483648).
        { apply Z.mod_divide in Hmod; [|lia]. destruct Hmod as [k Hk].
          change (2 ^ 31) with 2147483648 in *. lia. }
        pose proof (blocks_bound e l (cur + 2 ^ 31) 0 (-1) He Ht Ho
                      ltac:(lia) ltac:(apply Z.mod_1_r) ltac:(lia)) as Hn.
        change (2 ^ (-1 + 1)) with 1 in Hn.
        change (2 ^ 31) with 2147483648 in *.
        specialize (Hn ltac:(lia)). lia.
      * pose proof (blocks_bound e l (cur + 2 ^ h) h (h - 1) He Ht Ho
                      ltac:(lia) (align_same cur h ltac:(lia) Hmod)
                      ltac:(lia)) as Hn.
        replace (h - 1 + 1) with h in Hn by lia.
        specialize (Hn ltac:(lia)). lia.
    + destruct Hstop as [-> | [Hodd | Hover]]; [lia| |lia].
      assert (Hah : a <= h).
      { destruct (Z.le_gt_cases a h) as [|Hgt]; [assumption|exfalso].
        apply Hodd. apply (align_weaken cur (h + 1) a); [lia | assumption]. }
      assert (Hh30 : h + 1 <= 31).
      { destruct (Z.eq_dec h 31) as [->|]; [exfalso|lia].
        change (2 ^ (31 + 1)) with 4294967296 in Hbig. lia. }
      pose proof (IH (cur + 2 ^ h) (h + 1) He Ht Ho ltac:(lia) ltac:(lia)
                    (align_step cur h ltac:(lia) Hmod Hodd)) as Hn.
      lia.
Qed.

(** As many iterations as there are blocks are enough for the loop. *)
Lemma calculate_loop_enough e l : forall cur acc fuel,
  tiles cur l e ->
  Forall (fun b => getOptimalRange (ipLow b) e = Normal (Some b)) l ->
  (List.length l <= fuel)%nat ->
  calculate_loop fuel cur e acc = Normal (Some (acc ++ l)).
Proof.
  induction l as [|b l IH]; intros cur acc fuel Ht Ho Hf.
  - cbn [tiles] in Ht. rewrite app_nil_r.
    destruct fuel; cbn [calculate_loop];
      destruct (Z.leb_spec cur e); reflexivity || lia.
  - destruct Ht as (Hlow & Hh & Ht). apply Forall_cons_iff in Ho as [Hob Ho].
    destruct fuel as [|fuel]; [cbn [List.length] in Hf; lia|].
    cbn [calculate_loop]. destruct (Z.leb_spec cur e); [|lia].
    rewrite <- Hlow, Hob. cbn [bind].
    rewrite (IH _ (acc ++ [b]) fuel Ht Ho)
      by (cbn [List.length] in Hf; lia).
    now rewrite <- app_assoc.
Qed.

(** The result of the loop on any budget that lets it end is the result
    of [calculate]. *)
Lemma calculate_by_fuel s e fuel v :
  0 <= s <= e -> e <= 4294967295 ->
  calculate_loop fuel s e [] = Normal v ->
  calculate (IPNum s) (IPNum e) = Normal v.
Proof.
  intros Hs He Hv. unfold calculate.
  rewrite !toDecimal_num by lia. cbn [bind try_catch].
  destruct (Z.ltb_spec e s); [lia|].
  destruct (calculate_loop_tiles e (Z.to_nat (e - s + 1)) s [])
    as (l0 & Hrun & _); try lia.
  pose proof (calculate_loop_more_fuel e _ _ _ _ fuel Hrun) as H1.
  pose proof (calculate_loop_more_fuel e _ _ _ _
                (Z.to_nat (e - s + 1)) Hv) as H2.
  rewrite Nat.add_comm in H2. rewrite Hrun. congruence.
Qed.

End Count.

(** X20.  [calculate] never returns more than 62 blocks, and there is a
    range, from 0.0.0.1 to 255.255.255.254, for which it returns
    exactly 62. *)
Theorem X20_calculate_at_most_62_blocks :
  (forall ipStart ipEnd l,
      calculate ipStart ipEnd = Normal (Some l) ->
      Z.of_nat (List.length l) <= 62) /\
  (exists l,
      calculate (IPStr "0.0.0.1") (IPStr "255.255.255.254") = Normal (Some l)
      /\ Z.of_nat (List.length l) = 62).
Proof.
  split.
  - intros ipStart ipEnd l Hl.
    destruct (toDecimal_cases ipStart) as [[s Hs] | Hs];
      [|unfold calculate in Hl; rewrite Hs in Hl; discriminate Hl].
    destruct (toDecimal_cases ipEnd) as [[e He] | He];
      [|unfold calculate in Hl; rewrite Hs, He in Hl; discriminate Hl].
    destruct (calculate_Some_inv _ _ _ _ _ Hs He Hl)
      as (Hse & Hemax & Ht & Ho).
    destruct (Z.eq_dec s 0) as [-> | Hs0].
    + pose proof (blocks_bound e l 0 32 32 Hemax Ht Ho ltac:(lia) eq_refl
                    ltac:(lia)) as Hn.
      change (2 ^ (32 + 1)) with 8589934592 in Hn.
      specialize (Hn ltac:(lia)). lia.
    + pose proof (blocks_bound_nonzero e l s 0 Hemax Ht Ho ltac:(lia)
                    ltac:(lia) ltac:(apply Z.mod_1_r)) as Hn.
      lia.
  - eexists. split.
    + rewrite (calculate_of_decimal (IPStr "0.0.0.1")
                 (IPStr "255.255.255.254") 1 4294967294 eq_refl eq_refl).
      apply (calculate_by_fuel 1 4294967294 62); [lia | lia |].
      vm_compute. reflexivity.
    + reflexivity.
Qed.

Lemma X20_calculate_at_most_62_blocks_witness :
  Z.of_nat
    (List.length [descriptor 167772671 32; descriptor 167772672 23]) <= 62.
Proof.
  exact (proj1 X20_calculate_at_most_62_blocks
           (IPStr "10.0.1.255") (IPStr "10.0.3.255")
           [descriptor 167772671 32; descriptor 167772672 23] eq_refl).
Defined.

(** X21.  When the entry points return [null]: [calculate] exactly when
    the conversion of an endpoint throws or the end is smaller than the
    start; [calculateSubnetMask] exactly when the conversion of the
    address throws; [calculateCIDRPrefix] exactly when the conversion
    of the address or of the mask throws. *)
Theorem X21_null_results (x y : IPAny) (p : Z) :
  (calculate x y = Normal None <->
   (exists err, toDecimal x = Throw err) \/
   (exists err, toDecimal y = Throw err) \/
   (exists s e, toDecimal x = Normal s /\ toDecimal y = Normal e /\ e < s)) /\
  (calculateSubnetMask x p = Normal None <->
   exists err, toDecimal x = Throw err) /\
  (calculateCIDRPrefix x y = Normal None <->
   (exists err, toDecimal x = Throw err) \/
   (exists err, toDecimal y = Throw err)).
Proof.
  split; [|split].
  - destruct (toDecimal_cases x) as [[s Hs] | Hs];
      [|split; [intros _; left; eauto | intros _; unfold calculate;
                                        now rewrite Hs]].
    destruct (toDecimal_cases y) as [[e He] | He];
      [|split; [intros _; right; left; eauto | intros _; unfold calculate;
                                               now rewrite Hs, He]].
    split.
    + intros Hn. right. right. exists s, e. repeat split; try assumption.
      destruct (Z.lt_ge_cases e s) as [|Hle]; [assumption|exfalso].
      pose proof (toDecimal_range _ _ Hs). pose proof (toDecimal_range _ _ He).
      rewrite (calculate_of_decimal _ _ _ _ Hs He) in Hn.
      unfold calculate in Hn. rewrite !toDecimal_num in Hn by lia.
      cbn [bind try_catch] in Hn. destruct (Z.ltb_spec e s); [lia|].
      destruct (calculate_loop_tiles e (Z.to_nat (e - s + 1)) s [])
        as (l & Hrun & _); try lia.
      congruence.
    + intros [[err H] | [[err H] | (s' & e' & Hs' & He' & Hlt)]];
        try congruence.
      unfold calculate. rewrite Hs, He. cbn [bind try_catch].
      assert (s' = s) as -> by congruence.
      assert (e' = e) as -> by congruence.
      destruct (Z.ltb_spec e s); [reflexivity | lia].
  - unfold calculateSubnetMask.
    destruct (toDecimal_cases x) as [[a Ha] | Ha]; rewrite Ha;
      cbn [try_catch].
    + split; [|intros [err H]; discriminate H].
      destruct (getMaskRange a p); cbn [bind]; discriminate.
    + split; [eauto | reflexivity].
  - destruct (toDecimal_cases x) as [[a Ha] | Ha];
      [|split; [intros _; left; eauto | intros _; unfold calculateCIDRPrefix;
                                        now rewrite Ha]].
    destruct (toDecimal_cases y) as [[m Hm] | Hm];
      [|split; [intros _; right; eauto | intros _; unfold calculateCIDRPrefix;
                                         now rewrite Ha, Hm]].
    destruct (calculateCIDRPrefix_Normal _ _ _ _ Ha Hm) as (_ & r & _ & Hrun).
    rewrite Hrun. split; [discriminate|].
    intros [[err H] | [err H]]; congruence.
Qed.

Lemma X21_null_results_witness :
  calculate (IPStr "1.2.3.4") (IPNum 7) = Normal None /\
  calculateSubnetMask (IPStr "1.2.3") 24 = Normal None /\
  calculateCIDRPrefix (IPNum 7) (IPStr "255.255.256.0") = Normal None.
Proof.
  destruct (X21_null_results (IPStr "1.2.3.4") (IPNum 7) 0) as (H1 & _).
  destruct (X21_null_results (IPStr "1.2.3") (IPNum 0) 24) as (_ & H2 & _).
  destruct (X21_null_results (IPNum 7) (IPStr "255.255.256.0") 0)
    as (_ & _ & H3).
  split; [|split].
  - apply H1. right. right. exists 16909060, 7.
    repeat split; reflexivity || lia.
  - apply H2. eexists. reflexivity.
  - apply H3. right. eexists. reflexivity.
Defined.
